(** * Weighted quantile summaries: a shallow embedding of [summary.go]

    The Go package keeps a sorted sketch of weighted samples
    ([Summary], a slice of [SumEntry]) and offers construction from a
    sorted buffer, merging, in-place compression and quantile queries.
    All numbers of the sketch are [float64]; they are modelled by Rocq's
    primitive binary64 floats, whose operations are the IEEE 754 ones Go
    uses (round to nearest even, NaN unordered, [+0 == -0]). *)

From Stdlib Require Import ZArith Lia Bool List Floats.
From stdpp Require Import base option list gmap.
Import ListNotations.

Set Default Proof Using "Type".
Open Scope Z_scope.

(** ** Machine numbers *)

Module F64.

(** [float64(n)] for an integer [n]: the nearest binary64 value. *)
Definition of_int (z : Z) : float :=
  SF2Prim (binary_normalize prec emax z 0 false).

(** [int(f)]: truncation toward zero of a finite float (Go leaves the
    result for NaN and infinities to the platform; [0] stands for it). *)
Definition to_int (f : float) : Z :=
  match Prim2SF f with
  | S754_finite s m e => cond_Zopp s (Z.shiftl (Zpos m) e)
  | _ => 0
  end.

End F64.

(** Two's complement wrap-around of [int64] arithmetic. *)
Definition wrap64 (z : Z) : Z := (z + 2 ^ 63) mod 2 ^ 64 - 2 ^ 63.

(** The longest [[]float64] that [make] gives: Go's runtime panics in
    [makeslice] when the length asked for is negative or its size in
    bytes is above [maxAlloc], which is 2^48 on 64-bit Linux (amd64);
    a [float64] takes 8 bytes. Within that limit the allocation is
    taken to succeed. *)
Definition maxSliceLen : Z := 2 ^ 45.

(** Modelled from the spec: [maxInt64] and [maxFloat64] are helpers of the
    package that live outside [summary.go]; the spec only calls them
    [max]. *)
Definition maxInt64 (a b : Z) : Z := if b <? a then a else b.

Definition maxFloat64 (a b : float) : float := if (b <? a)%float then a else b.

(** ** Outcomes of partial code

    Go panics on an index out of range; the loops whose exit depends on
    the data are run with fuel. *)

Inductive outcome (A : Type) : Type :=
| Done (a : A)
| Panic
| OutOfFuel.
Arguments Done {A} a.
Arguments Panic {A}.
Arguments OutOfFuel {A}.

#[export] Instance outcome_ret : MRet outcome := @Done.
#[export] Instance outcome_bind : MBind outcome := fun A B f m =>
  match m with
  | Done a => f a
  | Panic => Panic
  | OutOfFuel => OutOfFuel
  end.

(** [s[i]] and [s[i] = x] with Go's bounds check. *)
Definition read {A} (s : list A) (i : nat) : outcome A :=
  match s !! i with
  | Some x => Done x
  | None => Panic
  end.

Definition write {A} (s : list A) (i : nat) (x : A) : outcome (list A) :=
  if decide (i < length s)%nat then Done (<[i := x]> s) else Panic.

(** ** Entries *)

Record SumEntry : Type := mkSumEntry {
  value : float;
  weight : float;
  minRank : float;
  maxRank : float
}.

Definition Value (se : SumEntry) : float := value se.
Definition Weight (se : SumEntry) : float := weight se.
Definition MaxRank (se : SumEntry) : float := maxRank se.
Definition MinRank (se : SumEntry) : float := minRank se.

Definition prevMaxRank (se : SumEntry) : float := (maxRank se - weight se)%float.
Definition nextMinRank (se : SumEntry) : float := (minRank se + weight se)%float.

(** Go's [==] on the struct: field by field, with the float comparison
    (so an entry with a NaN field differs from itself). *)
Definition SumEntry_eqb (a b : SumEntry) : bool :=
  (value a =? value b)%float && (weight a =? weight b)%float &&
  (minRank a =? minRank b)%float && (maxRank a =? maxRank b)%float.

(** Modelled from the spec: [bufEntry] is declared with the sample buffer,
    outside [summary.go]; the code reads its [value] and [weight]. *)
Module Buf.
Record bufEntry : Type := mk { value : float; weight : float }.
End Buf.
Abbreviation bufEntry := Buf.bufEntry.

(** ** Summaries *)

Record Summary : Type := mkSummary { entries : list SumEntry }.

Definition newSummary : Summary := {| entries := [] |}.

Definition clone (sum : Summary) : Summary := {| entries := entries sum |}.

(** The loop of [buildFromBufferEntries], with its running [cumWeight]. *)
Fixpoint build_loop (cumWeight : float) (bes : list bufEntry) : list SumEntry :=
  match bes with
  | [] => []
  | entry :: rest =>
      let curWeight := Buf.weight entry in
      {| value := Buf.value entry;
         weight := Buf.weight entry;
         minRank := cumWeight;
         maxRank := (cumWeight + curWeight)%float |}
      :: build_loop (cumWeight + curWeight)%float rest
  end.

Definition buildFromBufferEntries (bes : list bufEntry) : Summary :=
  {| entries := build_loop 0%float bes |}.

Definition buildFromSummaryEntries (ses : list SumEntry) : Summary :=
  {| entries := ses |}.

(** ** Accessors *)

Definition MinValue (sum : Summary) : float :=
  match entries sum with
  | e :: _ => value e
  | [] => 0%float
  end.

Definition MaxValue (sum : Summary) : float :=
  match last (entries sum) with
  | Some e => value e
  | None => 0%float
  end.

Definition TotalWeight (sum : Summary) : float :=
  match last (entries sum) with
  | Some e => maxRank e
  | None => 0%float
  end.

Definition Size (sum : Summary) : Z := Z.of_nat (length (entries sum)).

Definition Clear (sum : Summary) : Summary := {| entries := [] |}.

Definition Entries (sum : Summary) : list SumEntry := entries sum.

(** ** Approximation error *)

(** The loop of [ApproximationError] from index 1 on: [prev] is
    [entries[i-1]]. *)
Fixpoint maxGap_loop (prev : SumEntry) (rest : list SumEntry) (maxGap : float) : float :=
  match rest with
  | [] => maxGap
  | it :: rest' =>
      let tmp := (maxRank it - minRank it - weight it)%float in
      let maxGap := if (maxGap <? tmp)%float then tmp else maxGap in
      let tmp := (prevMaxRank it - nextMinRank prev)%float in
      let maxGap := if (maxGap <? tmp)%float then tmp else maxGap in
      maxGap_loop it rest' maxGap
  end.

Definition ApproximationError (sum : Summary) : float :=
  match entries sum with
  | [] => 0%float
  | e0 :: rest => (maxGap_loop e0 rest 0 / TotalWeight sum)%float
  end.

(** ** Merge *)

(** [entries[len(entries)-1].maxRank] of a non-empty slice. *)
Definition lastMaxRank (es : list SumEntry) : float :=
  match last es with
  | Some e => maxRank e
  | None => 0%float
  end.

Section MergeLoop.
(** The two slices being merged, [baseEntries] and [otherEntries]. *)
Variables baseEntries otherEntries : list SumEntry.

(** The residual loops: what is left of one slice once the other is
    exhausted. *)
Definition residual1 (nextMinRank2 : float) (l1 : list SumEntry) : list SumEntry :=
  map (fun it1 =>
         {| value := value it1; weight := weight it1;
            minRank := (minRank it1 + nextMinRank2)%float;
            maxRank := (maxRank it1 + lastMaxRank otherEntries)%float |}) l1.

Definition residual2 (nextMinRank1 : float) (l2 : list SumEntry) : list SumEntry :=
  map (fun it2 =>
         {| value := value it2; weight := weight it2;
            minRank := (minRank it2 + nextMinRank1)%float;
            maxRank := (maxRank it2 + lastMaxRank baseEntries)%float |}) l2.

(** The main loop: [l1] is [baseEntries[i:]] and [l2] is
    [otherEntries[j:]]; the result is what is written from [num] on. *)
Fixpoint merge_loop (l1 : list SumEntry) :
    list SumEntry -> float -> float -> list SumEntry :=
  fix from_other (l2 : list SumEntry) (nextMinRank1 nextMinRank2 : float)
      {struct l2} : list SumEntry :=
    match l1, l2 with
    | [], _ => residual2 nextMinRank1 l2
    | _, [] => residual1 nextMinRank2 l1
    | it1 :: l1', it2 :: l2' =>
        if (value it1 <? value it2)%float then
          {| value := value it1; weight := weight it1;
             minRank := (minRank it1 + nextMinRank2)%float;
             maxRank := (maxRank it1 + prevMaxRank it2)%float |}
          :: merge_loop l1' l2 (nextMinRank it1) nextMinRank2
        else if (value it2 <? value it1)%float then
          {| value := value it2; weight := weight it2;
             minRank := (minRank it2 + nextMinRank1)%float;
             maxRank := (maxRank it2 + prevMaxRank it1)%float |}
          :: from_other l2' nextMinRank1 (nextMinRank it2)
        else
          {| value := value it1; weight := (weight it1 + weight it2)%float;
             minRank := (minRank it1 + minRank it2)%float;
             maxRank := (maxRank it1 + maxRank it2)%float |}
          :: merge_loop l1' l2' (nextMinRank it1) (nextMinRank it2)
    end.
End MergeLoop.

(** [sum.Merge(other)]: the receiver after the call. An empty operand
    hands the other slice over as it is. *)
Definition Merge (sum other : Summary) : Summary :=
  let otherEntries := entries other in
  match otherEntries, entries sum with
  | [], _ => sum
  | _, [] => {| entries := otherEntries |}
  | _, baseEntries =>
      {| entries := merge_loop baseEntries otherEntries baseEntries otherEntries 0 0 |}
  end.

(** ** Compression *)

Section Compress.
Variables (sizeHint addStep : Z) (epsDelta : float).

(** The inner admission scan from [ni], for the anchor [ri]. *)
Fixpoint scan (fuel : nat) (es : list SumEntry) (ri ni : nat) (addAccumulator : Z)
    : outcome (nat * Z) :=
  match fuel with
  | O => OutOfFuel
  | S fuel' =>
      if negb (ni =? length es)%nat && (addAccumulator <? addStep) then
        en ← read es ni;
        er ← read es ri;
        if (prevMaxRank en - nextMinRank er <=? epsDelta)%float then
          scan fuel' es ri (S ni) (wrap64 (addAccumulator + sizeHint))
        else Done (ni, addAccumulator)
      else Done (ni, addAccumulator)
  end.

(** One iteration of the outer loop, entered with [ri+1 != len]: the
    slice after the write, the new [ri] and the new accumulator. The
    write goes into the slice that is being read. *)
Definition compress_body (es : list SumEntry) (ri wi : nat) (addAccumulator : Z)
    : outcome (list SumEntry * nat * Z) :=
  '(ni, addAccumulator) ← scan (length es) es ri (ri + 1)%nat addAccumulator;
  a ← read es ri;
  b ← read es (ni - 1)%nat;
  let ri := if SumEntry_eqb a b then (ri + 1)%nat else (ni - 1)%nat in
  c ← read es ri;
  es ← write es wi c;
  Done (es, ri, wrap64 (addAccumulator - addStep)).

(** The outer loop. *)
Fixpoint compress_loop (fuel : nat) (es : list SumEntry) (ri wi li : nat)
    (addAccumulator : Z) : outcome (list SumEntry * nat * nat) :=
  match fuel with
  | O => OutOfFuel
  | S fuel' =>
      if (ri + 1 =? length es)%nat then Done (es, wi, li)
      else
        '(es, ri, addAccumulator) ← compress_body es ri wi addAccumulator;
        compress_loop fuel' es ri (wi + 1)%nat ri addAccumulator
  end.
End Compress.

(** [sum.compress(sizeHint, minEps)] on the slice [es]: the backing
    array after the call (as long as [es]) together with the new length
    of the slice. *)
Definition compress_inplace (es : list SumEntry) (sizeHint : Z) (minEps : float)
    : outcome (list SumEntry * nat) :=
  let sizeHint := maxInt64 sizeHint 2 in
  if Z.of_nat (length es) <=? sizeHint then Done (es, length es)
  else
    let epsDelta :=
      (TotalWeight {| entries := es |} * maxFloat64 (1 / F64.of_int sizeHint) minEps)%float in
    let addStep := Z.of_nat (length es) in
    '(es, wi, li) ← compress_loop sizeHint addStep epsDelta (length es) es 0 1 1 0;
    '(es, wi) ← (if (li + 1 =? length es)%nat then Done (es, wi)
                 else
                   l ← read es (length es - 1)%nat;
                   es ← write es wi l;
                   Done (es, (wi + 1)%nat));
    if decide (wi <= length es)%nat then Done (es, wi) else Panic.

Definition compress (sum : Summary) (sizeHint : Z) (minEps : float) : outcome Summary :=
  '(es, wi) ← compress_inplace (entries sum) sizeHint minEps;
  Done {| entries := take wi es |}.

(** ** Boundaries *)

(** [sum.GenerateBoundaries(numBoundaries)]: the returned slice. The
    compression runs on the receiver's own entries
    ([buildFromSummaryEntries] stores the slice it is given). *)
Definition GenerateBoundaries (sum : Summary) (numBoundaries : Z) : outcome (list float) :=
  match entries sum with
  | [] => Done []
  | _ =>
      let compressedSummary := buildFromSummaryEntries (entries sum) in
      let compressionEps :=
        (ApproximationError sum + 1 / F64.of_int numBoundaries)%float in
      compressedSummary ← compress compressedSummary numBoundaries compressionEps;
      let output := replicate (length (entries compressedSummary)) 0%float in
      Done (fold_left (fun output entry => output ++ [value entry])
                      (entries compressedSummary) output)
  end.

(** ** Quantiles *)

Section Quantiles.
Variable es : list SumEntry.

(** The cursor scan: advance [nextIdx] while the doubled target rank
    [d2] is at or past the entry's doubled rank. *)
Fixpoint advance (fuel : nat) (d2 : float) (nextIdx : nat) : outcome nat :=
  match fuel with
  | O => OutOfFuel
  | S fuel' =>
      if (nextIdx <? length es)%nat then
        e ← read es nextIdx;
        if (minRank e + maxRank e <=? d2)%float then advance fuel' d2 (S nextIdx)
        else Done nextIdx
      else Done nextIdx
  end.

(** The loop over [rank], a float counter. *)
Fixpoint quantile_loop (fuel : nat) (numQuantiles : Z) (rank : float) (curIdx : nat)
    (output : list float) : outcome (list float) :=
  match fuel with
  | O => OutOfFuel
  | S fuel' =>
      if (rank <=? F64.of_int numQuantiles)%float then
        l ← read es (length es - 1)%nat;
        let d2 := (2 * (rank * maxRank l / F64.of_int numQuantiles))%float in
        nextIdx ← advance (length es) d2 (curIdx + 1)%nat;
        let curIdx := (nextIdx - 1)%nat in
        first ← (if (nextIdx =? length es)%nat then Done true
                 else
                   c ← read es curIdx;
                   n ← read es nextIdx;
                   Done (d2 <? nextMinRank c + prevMaxRank n)%float);
        e ← read es (if first : bool then curIdx else nextIdx);
        let i := F64.to_int rank in
        output ← (if i <? 0 then Panic else write output (Z.to_nat i) (value e));
        quantile_loop fuel' numQuantiles (rank + 1)%float curIdx output
      else Done output
  end.
End Quantiles.

(** [sum.GenerateQuantiles(numQuantiles)]; [fuel] bounds the number of
    tests of the loop over [rank]. [make] panics on a length that is
    negative ([numQuantiles+1] wraps around) or above [maxSliceLen]. *)
Definition GenerateQuantiles (fuel : nat) (sum : Summary) (numQuantiles : Z)
    : outcome (list float) :=
  match entries sum with
  | [] => Done []
  | _ =>
      let numQuantiles := if numQuantiles <? 2 then 2 else numQuantiles in
      let n := wrap64 (numQuantiles + 1) in
      if (n <? 0) || (maxSliceLen <? n) then Panic
      else
        let output := replicate (Z.to_nat n) 0%float in
        quantile_loop (entries sum) fuel numQuantiles 0%float 0 output
  end.


(** ** Slices in the store

    A Go slice is a header (backing array, length) and assigning it
    shares the array. The functions above compute on the contents; the
    ones below place them in a store of backing arrays, to follow who
    sees the writes of [compress]. All slices of the package start at
    offset 0 of their array. *)

Module Heap.

Record slice : Type := mkSlice { base : nat; len : nat }.

(** A summary object holds one slice. *)
Record Summary : Type := mk { entries : slice }.

Definition store : Type := gmap nat (list SumEntry).

(** The entries a slice shows in a store. *)
Definition view (h : store) (s : slice) : list SumEntry :=
  take (len s) (default [] (h !! base s)).

(** [sum.entries = ses]: the header is copied, the array is shared. *)
Definition buildFromSummaryEntries (ses : slice) : Summary :=
  {| entries := ses |}.

(** [clone]: a fresh array with a copy of the entries. *)
Definition clone (h : store) (sum : Summary) : store * Summary :=
  let b := fresh (dom h) in
  (<[b := view h (entries sum)]> h,
   {| entries := {| base := b; len := len (entries sum) |} |}).

(** [sum.compress(sizeHint, minEps)]: the writes go to the backing
    array; only the receiver's header gets the new length. *)
Definition compress (h : store) (sum : Summary) (sizeHint : Z) (minEps : float)
    : outcome (store * Summary) :=
  let s := entries sum in
  match h !! base s with
  | None => Panic
  | Some arr =>
      '(es, wi) ← compress_inplace (take (len s) arr) sizeHint minEps;
      Done (<[base s := es ++ drop (len s) arr]> h,
            {| entries := {| base := base s; len := wi |} |})
  end.

(** [sum.GenerateBoundaries(numBoundaries)]: the store after the call
    and the returned slice. *)
Definition GenerateBoundaries (h : store) (sum : Summary) (numBoundaries : Z)
    : outcome (store * list float) :=
  if (len (entries sum) =? 0)%nat then Done (h, [])
  else
    let compressedSummary := buildFromSummaryEntries (entries sum) in
    let compressionEps :=
      (ApproximationError (mkSummary (view h (entries sum)))
       + 1 / F64.of_int numBoundaries)%float in
    '(h, compressedSummary) ← compress h compressedSummary numBoundaries compressionEps;
    let es := view h (entries compressedSummary) in
    let output := replicate (length es) 0%float in
    Done (h, fold_left (fun output entry => output ++ [value entry]) es output).

End Heap.

(** * Properties *)

(** ** Reads, writes and outcomes *)

Lemma read_Done {A} (s : list A) (i : nat) (x : A) :
  read s i = Done x <-> s !! i = Some x.
Proof. unfold read. destruct (s !! i); split; congruence. Qed.

Lemma read_lt {A} (s : list A) (i : nat) :
  (i < length s)%nat -> exists x, read s i = Done x /\ s !! i = Some x.
Proof.
  intros H. destruct (lookup_lt_is_Some_2 s i H) as [x Hx].
  exists x. split; [now apply read_Done | exact Hx].
Qed.

Lemma read_never_fuel {A} (s : list A) (i : nat) : read s i <> OutOfFuel.
Proof. unfold read. destruct (s !! i); discriminate. Qed.

Lemma write_lt {A} (s : list A) (i : nat) (x : A) :
  (i < length s)%nat -> write s i x = Done (<[i := x]> s).
Proof. intros H. unfold write. destruct (decide (i < length s)%nat); [reflexivity | lia]. Qed.

Lemma write_Done {A} (s s' : list A) (i : nat) (x : A) :
  write s i x = Done s' -> (i < length s)%nat /\ s' = <[i := x]> s.
Proof. unfold write. destruct (decide (i < length s)%nat); intros H; inversion H; auto. Qed.

Lemma write_never_fuel {A} (s : list A) (i : nat) (x : A) : write s i x <> OutOfFuel.
Proof. unfold write. destruct (decide (i < length s)%nat); discriminate. Qed.

Lemma bind_Done {A B} (m : outcome A) (f : A -> outcome B) (b : B) :
  m ≫= f = Done b -> exists a, m = Done a /\ f a = Done b.
Proof. destruct m; simpl; intros H; try discriminate. eauto. Qed.

Lemma bind_never_fuel {A B} (m : outcome A) (f : A -> outcome B) :
  m <> OutOfFuel -> (forall a, m = Done a -> f a <> OutOfFuel) -> m ≫= f <> OutOfFuel.
Proof. destruct m; simpl; intros H1 H2; [auto | discriminate | congruence]. Qed.

(** ** Self-equal entries

    An entry compares equal to itself unless one of its fields is NaN. *)

Definition self_equal (e : SumEntry) : Prop := SumEntry_eqb e e = true.

(** ** The compression loops *)

Section CompressFacts.
Variables (sizeHint addStep : Z) (epsDelta : float).

Lemma scan_never_fuel fuel es ri ni acc :
  (length es - ni < fuel)%nat ->
  scan sizeHint addStep epsDelta fuel es ri ni acc <> OutOfFuel.
Proof.
  revert ni acc. induction fuel as [|fuel IH]; intros ni acc Hf; [lia|].
  simpl. destruct (negb (ni =? length es)%nat && (acc <? addStep)) eqn:Hc; [|discriminate].
  apply andb_true_iff in Hc as [Hn _].
  apply negb_true_iff, Nat.eqb_neq in Hn.
  apply bind_never_fuel; [apply read_never_fuel|]. intros en Hen.
  apply bind_never_fuel; [apply read_never_fuel|]. intros er _.
  apply read_Done, lookup_lt_Some in Hen.
  destruct (_ <=? _)%float; [|discriminate].
  apply IH. lia.
Qed.

Lemma scan_Done fuel es ri ni acc :
  (ri < length es)%nat -> (ni <= length es)%nat -> (length es - ni < fuel)%nat ->
  exists ni' acc',
    scan sizeHint addStep epsDelta fuel es ri ni acc = Done (ni', acc') /\
    (ni <= ni' <= length es)%nat.
Proof.
  intros Hri. revert ni acc. induction fuel as [|fuel IH]; intros ni acc Hni Hf; [lia|].
  simpl. destruct (negb (ni =? length es)%nat && (acc <? addStep)) eqn:Hc.
  - apply andb_true_iff in Hc as [Hn _].
    apply negb_true_iff, Nat.eqb_neq in Hn.
    destruct (read_lt es ni) as (en & -> & _); [lia|].
    destruct (read_lt es ri) as (er & -> & _); [lia|]. simpl.
    destruct (_ <=? _)%float.
    + destruct (IH (S ni) (wrap64 (acc + sizeHint))) as (ni' & acc' & -> & Hb); [lia|lia|].
      exists ni', acc'. split; [reflexivity|lia].
    + exists ni, acc. split; [reflexivity|lia].
  - exists ni, acc. split; [reflexivity|lia].
Qed.

(** With entries that equal themselves, an iteration moves [ri]
    strictly forward and stays inside the slice. *)
Lemma compress_body_Done es ri wi acc :
  Forall self_equal es -> (ri + 1 < length es)%nat -> (wi <= ri + 1)%nat ->
  exists es' ri' acc',
    compress_body sizeHint addStep epsDelta es ri wi acc = Done (es', ri', acc') /\
    (ri < ri' < length es)%nat /\ length es' = length es /\ Forall self_equal es'.
Proof.
  intros Hse Hri Hwi. unfold compress_body.
  destruct (scan_Done (length es) es ri (ri + 1) acc) as (ni & acc' & -> & Hni); [lia..|].
  simpl.
  destruct (read_lt es ri) as (a & -> & Ha); [lia|]. simpl.
  destruct (read_lt es (ni - 1)) as (b & -> & Hb); [lia|]. simpl.
  set (ri' := if SumEntry_eqb a b then (ri + 1)%nat else (ni - 1)%nat).
  assert (Hri' : (ri < ri' < length es)%nat).
  { subst ri'. destruct (SumEntry_eqb a b) eqn:Hab; [lia|].
    destruct (decide (ni = ri + 1)%nat) as [->|Hne]; [|lia].
    replace (ri + 1 - 1)%nat with ri in Hb by lia.
    assert (a = b) by congruence. subst b.
    pose proof (Forall_lookup_1 _ _ _ _ Hse Ha) as Hs. unfold self_equal in Hs. congruence. }
  destruct (read_lt es ri') as (c & -> & Hc); [lia|]. simpl.
  rewrite write_lt by lia. simpl.
  exists (<[wi := c]> es), ri', (wrap64 (acc' - addStep)).
  split; [reflexivity|]. split; [exact Hri'|]. split; [apply length_insert|].
  apply Forall_insert; [exact Hse|]. exact (Forall_lookup_1 _ _ _ _ Hse Hc).
Qed.

Lemma compress_body_never_fuel es ri wi acc :
  (0 < length es)%nat ->
  compress_body sizeHint addStep epsDelta es ri wi acc <> OutOfFuel.
Proof.
  intros Hlen. unfold compress_body.
  apply bind_never_fuel.
  - apply scan_never_fuel. lia.
  - intros [ni acc'] _. simpl.
    apply bind_never_fuel; [apply read_never_fuel|]. intros a _.
    apply bind_never_fuel; [apply read_never_fuel|]. intros b _.
    apply bind_never_fuel; [apply read_never_fuel|]. intros c _.
    apply bind_never_fuel; [apply write_never_fuel|]. discriminate.
Qed.

Lemma compress_body_length es ri wi acc es' ri' acc' :
  compress_body sizeHint addStep epsDelta es ri wi acc = Done (es', ri', acc') ->
  length es' = length es /\ (wi < length es)%nat.
Proof.
  unfold compress_body. intros H.
  apply bind_Done in H as ([ni a0] & _ & H). simpl in H.
  apply bind_Done in H as (a & _ & H).
  apply bind_Done in H as (b & _ & H).
  apply bind_Done in H as (c & _ & H).
  apply bind_Done in H as (es1 & Hw & H).
  apply write_Done in Hw as [Hlt ->]. inversion H; subst.
  split; [apply length_insert|exact Hlt].
Qed.
End CompressFacts.

Section CompressLoopFacts.
Variables (sizeHint addStep : Z) (epsDelta : float).

(** Every iteration writes at [wi] and moves it on, so the loop cannot
    run longer than the slice, whatever the entries are. *)
Lemma compress_loop_never_fuel fuel es ri wi li acc :
  (0 < length es)%nat -> (length es - wi < fuel)%nat ->
  compress_loop sizeHint addStep epsDelta fuel es ri wi li acc <> OutOfFuel.
Proof.
  revert es ri wi li acc. induction fuel as [|fuel IH]; intros es ri wi li acc Hlen Hf; [lia|].
  simpl. destruct (ri + 1 =? length es)%nat; [discriminate|].
  apply bind_never_fuel; [now apply compress_body_never_fuel|].
  intros [[es' ri'] acc'] Hb. simpl.
  apply compress_body_length in Hb as [Hl Hw].
  apply IH; lia.
Qed.

Lemma compress_loop_length fuel es ri wi li acc es' wi' li' :
  compress_loop sizeHint addStep epsDelta fuel es ri wi li acc = Done (es', wi', li') ->
  (wi <= length es)%nat ->
  length es' = length es /\ (wi <= wi' <= length es)%nat.
Proof.
  revert es ri wi li acc. induction fuel as [|fuel IH]; intros es ri wi li acc H Hwi; [discriminate|].
  simpl in H. destruct (ri + 1 =? length es)%nat.
  - inversion H; subst. lia.
  - apply bind_Done in H as ([[es1 ri1] acc1] & Hb & H). simpl in H.
    apply compress_body_length in Hb as [Hl Hw].
    apply IH in H; [|lia]. lia.
Qed.

(** With entries that equal themselves the loop ends normally, having
    read up to the last entry. *)
Lemma compress_loop_Done fuel es ri wi li acc :
  Forall self_equal es -> (ri < length es)%nat -> (wi <= ri + 1)%nat ->
  (length es - ri <= fuel)%nat ->
  exists es' wi' li',
    compress_loop sizeHint addStep epsDelta fuel es ri wi li acc = Done (es', wi', li') /\
    length es' = length es /\ (wi <= wi' <= length es)%nat /\
    ((ri + 1 = length es)%nat /\ li' = li \/ (li' + 1 = length es)%nat).
Proof.
  revert es ri wi li acc. induction fuel as [|fuel IH]; intros es ri wi li acc Hse Hri Hwi Hf; [lia|].
  simpl. destruct (ri + 1 =? length es)%nat eqn:He.
  - apply Nat.eqb_eq in He. exists es, wi, li. repeat split; auto; lia.
  - apply Nat.eqb_neq in He.
    destruct (compress_body_Done sizeHint addStep epsDelta es ri wi acc)
      as (es1 & ri1 & acc1 & -> & Hr1 & Hl1 & Hse1); [assumption|lia|lia|].
    simpl.
    destruct (IH es1 ri1 (wi + 1)%nat ri1 acc1) as (es' & wi' & li' & -> & Hl & Hw & Hli);
      [assumption|lia|lia|lia|].
    exists es', wi', li'. split; [reflexivity|]. split; [lia|]. split; [lia|].
    right. destruct Hli as [[? ->]|?]; lia.
Qed.
End CompressLoopFacts.

Lemma compress_inplace_never_fuel es sizeHint minEps :
  compress_inplace es sizeHint minEps <> OutOfFuel.
Proof.
  unfold compress_inplace.
  destruct (Z.of_nat (length es) <=? maxInt64 sizeHint 2) eqn:Hc; [discriminate|].
  apply Z.leb_gt in Hc.
  assert (2 < Z.of_nat (length es)) by (unfold maxInt64 in Hc; destruct (2 <? sizeHint) eqn:E; lia).
  apply bind_never_fuel.
  - apply compress_loop_never_fuel; lia.
  - intros [[es1 wi] li] _. simpl.
    apply bind_never_fuel.
    + destruct (li + 1 =? length es1)%nat; [discriminate|].
      apply bind_never_fuel; [apply read_never_fuel|]. intros l _.
      apply bind_never_fuel; [apply write_never_fuel|]. discriminate.
    + intros [es2 wi2] _. simpl. destruct (decide (wi2 <= length es2)%nat); discriminate.
Qed.

Lemma compress_inplace_length es sizeHint minEps es' wi :
  compress_inplace es sizeHint minEps = Done (es', wi) ->
  length es' = length es /\ (wi <= length es)%nat /\
  (Z.of_nat (length es) <= maxInt64 sizeHint 2 -> es' = es /\ wi = length es).
Proof.
  unfold compress_inplace.
  destruct (Z.of_nat (length es) <=? maxInt64 sizeHint 2) eqn:Hc.
  - intros H. inversion H; subst. auto.
  - apply Z.leb_gt in Hc. intros H.
    apply bind_Done in H as ([[es1 wi1] li1] & Hloop & H). simpl in H.
    apply bind_Done in H as ([es2 wi2] & Hfin & H). simpl in H.
    destruct (decide (wi2 <= length es2)%nat); [|discriminate]. inversion H; subst.
    assert (Hl1 : length es1 = length es).
    { apply compress_loop_length in Hloop; [tauto|]. unfold maxInt64 in Hc.
      destruct (2 <? sizeHint) eqn:E; lia. }
    assert (Hl2 : length es' = length es1).
    { destruct (li1 + 1 =? length es1)%nat.
      - inversion Hfin; subst. reflexivity.
      - apply bind_Done in Hfin as (lst & _ & Hfin).
        apply bind_Done in Hfin as (es3 & Hw & Hfin).
        apply write_Done in Hw as [_ ->]. inversion Hfin; subst. apply length_insert. }
    split; [congruence|]. split; [lia|]. intros; lia.
Qed.

Lemma compress_inplace_Done es sizeHint minEps :
  Forall self_equal es ->
  exists es' wi, compress_inplace es sizeHint minEps = Done (es', wi).
Proof.
  intros Hse. unfold compress_inplace.
  destruct (Z.of_nat (length es) <=? maxInt64 sizeHint 2) eqn:Hc; [eauto|].
  apply Z.leb_gt in Hc.
  assert (2 < Z.of_nat (length es)) by (unfold maxInt64 in Hc; destruct (2 <? sizeHint) eqn:E; lia).
  match goal with |- context [compress_loop ?a ?b ?c ?f es 0 1 1 0] =>
    destruct (compress_loop_Done a b c f es 0 1 1 0)
      as (es1 & wi1 & li1 & -> & Hl & Hw & Hli); [assumption|lia|lia|lia|]
  end.
  simpl. assert (Hli' : (li1 + 1 = length es1)%nat) by lia.
  apply Nat.eqb_eq in Hli'. rewrite Hli'. simpl.
  destruct (decide (wi1 <= length es1)%nat); [eauto|lia].
Qed.

Lemma compress_never_fuel sum sizeHint minEps : compress sum sizeHint minEps <> OutOfFuel.
Proof.
  unfold compress. apply bind_never_fuel; [apply compress_inplace_never_fuel|].
  intros [es wi] _. discriminate.
Qed.

Lemma maxInt64_max a b : maxInt64 a b = Z.max a b.
Proof. unfold maxInt64. destruct (b <? a) eqn:E; lia. Qed.

Lemma self_equal_check (es : list SumEntry) :
  forallb (fun e => SumEntry_eqb e e) es = true -> Forall self_equal es.
Proof.
  induction es as [|e es IH]; simpl; intros H; constructor.
  - apply andb_true_iff in H. apply H.
  - apply IH. apply andb_true_iff in H. apply H.
Qed.

(** ** Sample inputs *)

(** A buffer of samples of weight one. *)
Definition unit_samples (vs : list Z) : list bufEntry :=
  map (fun v => Buf.mk (F64.of_int v) 1%float) vs.

Definition five : Summary := buildFromBufferEntries (unit_samples [1; 2; 3; 4; 5]).

Definition nan_weights : Summary :=
  buildFromBufferEntries [Buf.mk 1 nan; Buf.mk 2 nan; Buf.mk 3 nan].

(** ** C1: the size after compression *)

(** C1, as stated, fails: five samples of weight one compressed with
    [sizeHint = 2] keep three entries, more than [max(2, 2)]. *)
Lemma compress_size_hint_exceeded :
  exists sum', compress five 2 0 = Done sum' /\ ~ (Size sum' <= Z.max 2 2).
Proof.
  eexists. split; [vm_compute; reflexivity|]. vm_compute. intros H. apply H. reflexivity.
Qed.

(** C1, amended: on a summary whose entries equal themselves (no NaN
    field) [compress(k, e)] returns, the entry count never grows, and
    the summary is left as it is when its count is at most [max(k, 2)];
    [max(k, 2)] is a hint, not a bound. *)
Theorem compress_size (sum : Summary) (k : Z) (e : float) :
  Forall self_equal (entries sum) ->
  exists sum', compress sum k e = Done sum' /\
               Size sum' <= Size sum /\
               (Size sum <= Z.max k 2 -> sum' = sum).
Proof.
  intros Hse. destruct sum as [es]. simpl in Hse. unfold compress. simpl.
  destruct (compress_inplace_Done es k e Hse) as (es' & wi & Hc). rewrite Hc. simpl.
  apply compress_inplace_length in Hc as (Hl & Hw & Hno).
  eexists. split; [reflexivity|]. unfold Size. simpl. split.
  - rewrite length_take. lia.
  - intros Hk. rewrite maxInt64_max in Hno. destruct (Hno Hk) as [-> ->].
    now rewrite firstn_all.
Qed.

Lemma compress_size_witness :
  exists sum', compress five 2 0 = Done sum' /\
               Size sum' <= Size five /\
               (Size five <= Z.max 2 2 -> sum' = five).
Proof.
  apply (compress_size five 2 0). apply self_equal_check. vm_compute. reflexivity.
Defined.

(** ** C9: termination of compression *)

(** Go's [==] on entries is not reflexive, so with NaN weights the tie
    branch is not taken when nothing is admitted, [ri] stays where it
    is, and the write index runs off the slice. *)
Lemma compress_nan_panics : compress nan_weights 2 0 = Panic.
Proof. vm_compute. reflexivity. Qed.

(** Where the tie test works, that is on a summary whose entries equal
    themselves (no NaN field), [compress] returns for all arguments,
    and every iteration of its outer loop moves the read index [ri]
    strictly forward inside the slice. *)
Lemma compress_terminates (sum : Summary) (k : Z) (e : float) :
  Forall self_equal (entries sum) ->
  (exists sum', compress sum k e = Done sum') /\
  (forall sizeHint addStep epsDelta es ri wi acc,
      Forall self_equal es -> (ri + 1 < length es)%nat -> (wi <= ri + 1)%nat ->
      exists es' ri' acc',
        compress_body sizeHint addStep epsDelta es ri wi acc = Done (es', ri', acc') /\
        (ri < ri' < length es)%nat).
Proof.
  intros Hse. split.
  - unfold compress.
    destruct (compress_inplace_Done (entries sum) k e Hse) as (es' & wi & ->). simpl. eauto.
  - intros sizeHint addStep epsDelta es ri wi acc Hes Hri Hwi.
    destruct (compress_body_Done sizeHint addStep epsDelta es ri wi acc Hes Hri Hwi)
      as (es' & ri' & acc' & H & Hr & _).
    eauto.
Qed.

Lemma compress_terminates_witness :
  (exists sum', compress five 2 0 = Done sum') /\
  (forall sizeHint addStep epsDelta es ri wi acc,
      Forall self_equal es -> (ri + 1 < length es)%nat -> (wi <= ri + 1)%nat ->
      exists es' ri' acc',
        compress_body sizeHint addStep epsDelta es ri wi acc = Done (es', ri', acc') /\
        (ri < ri' < length es)%nat).
Proof.
  apply (compress_terminates five 2 0). apply self_equal_check. vm_compute. reflexivity.
Defined.

(** Samples within the contract: values in order, weights finite and
    non-negative. Two buffers hold the value 9 with the weight 2^1023
    each; merged, the entry has the weight [2^1023 + 2^1023 = +Inf] and
    the [maxRank] [+Inf], so its [prevMaxRank] is [Inf - Inf], a NaN,
    which the next [Merge] adds into the [maxRank] of the entries
    before it. *)
Definition heavy : Summary :=
  Merge (buildFromBufferEntries [Buf.mk 9 0x1p1023])
        (buildFromBufferEntries [Buf.mk 9 0x1p1023]).

Definition light : Summary := buildFromBufferEntries (unit_samples [1; 2; 3]).

Definition mixed : Summary := Merge light heavy.

(** C9 on the code: the tie branch is there to move [ri] on when the
    scan admits nothing, but its test is Go's [==] on the structs,
    which an entry with a NaN field fails against itself. The summary
    [mixed], merged from buffers of finite non-negative weights, has
    the [maxRank]s [NaN, NaN, NaN, +Inf]; on it the first iteration of
    the outer loop of [compress(2, 0)] leaves [ri] at 0, and
    [compress(2, 0)] and [GenerateBoundaries(2)] end in an index panic,
    as [compress(2, 0)] does on NaN weights. On every summary the loop
    ends within [len] iterations, by returning or by that panic. *)
Theorem compress_tie_misses :
  is_finite 0x1p1023 = true /\ (0 <=? 0x1p1023)%float = true /\
  map maxRank (entries mixed) = [nan; nan; nan; infinity] /\
  (exists es' acc',
     compress_body 2 4 (TotalWeight mixed * maxFloat64 (1 / F64.of_int 2) 0)%float
                   (entries mixed) 0 1 0 = Done (es', 0%nat, acc')) /\
  compress mixed 2 0 = Panic /\
  GenerateBoundaries mixed 2 = Panic /\
  compress nan_weights 2 0 = Panic /\
  (forall sum k e, compress sum k e <> OutOfFuel).
Proof.
  split; [reflexivity|]. split; [reflexivity|].
  split; [vm_compute; reflexivity|].
  split; [eexists _, _; vm_compute; reflexivity|].
  split; [vm_compute; reflexivity|].
  split; [vm_compute; reflexivity|].
  split; [vm_compute; reflexivity|].
  intros sum k e. apply compress_never_fuel.
Qed.

(** ** C8: the empty summary *)

(** C8: on a summary with no entries [GenerateQuantiles] and
    [GenerateBoundaries] return an empty slice for every argument, and
    [ApproximationError], [MinValue], [MaxValue] and [TotalWeight]
    return 0; none of them panics or loops. *)
Theorem empty_summary_queries (fuel : nat) (n : Z) :
  GenerateQuantiles fuel {| entries := [] |} n = Done [] /\
  GenerateBoundaries {| entries := [] |} n = Done [] /\
  ApproximationError {| entries := [] |} = 0%float /\
  MinValue {| entries := [] |} = 0%float /\
  MaxValue {| entries := [] |} = 0%float /\
  TotalWeight {| entries := [] |} = 0%float.
Proof. repeat split. Qed.

(** ** C10: the division in [ApproximationError] *)

Definition zero_weight : Summary := buildFromBufferEntries [Buf.mk 1 0; Buf.mk 2 0].

(** C10: for a non-empty summary [ApproximationError] is the maximal
    gap divided by [TotalWeight], whatever the total weight is; the
    summary built from samples of weight zero is non-empty, its total
    weight is 0, and the quotient is then [0/0], a NaN. *)
Theorem ApproximationError_divides (e0 : SumEntry) (rest : list SumEntry) :
  ApproximationError {| entries := e0 :: rest |}
  = (maxGap_loop e0 rest 0 / TotalWeight {| entries := e0 :: rest |})%float /\
  entries zero_weight <> [] /\
  Forall (fun e => weight e = 0%float) (entries zero_weight) /\
  TotalWeight zero_weight = 0%float /\
  ApproximationError zero_weight = (0 / 0)%float /\
  is_nan (ApproximationError zero_weight) = true.
Proof.
  split; [reflexivity|]. split; [discriminate|].
  split; [repeat constructor|]. repeat split.
Qed.

(** ** C3: the slice returned by [GenerateBoundaries] *)

(** What the code returns: as many zeros as the compressed summary has
    entries ([make] with a length), followed by the appended values. *)
Lemma GenerateBoundaries_output (sum : Summary) (n : Z) (out : list float) :
  entries sum <> [] ->
  GenerateBoundaries sum n = Done out ->
  exists c,
    compress sum n (ApproximationError sum + 1 / F64.of_int n)%float = Done c /\
    out = replicate (length (entries c)) 0%float ++ map value (entries c).
Proof.
  intros Hne H. unfold GenerateBoundaries in H.
  destruct sum as [es]. simpl in *. destruct es as [|e0 es]; [congruence|].
  unfold buildFromSummaryEntries in H.
  apply bind_Done in H as (c & Hc & H). exists c. split; [exact Hc|].
  inversion H; subst. clear.
  generalize (replicate (length (entries c)) 0%float) as acc.
  induction (entries c) as [|x xs IH]; intros acc; simpl.
  - now rewrite app_nil_r.
  - rewrite IH. now rewrite <- app_assoc.
Qed.

Definition single : Summary := buildFromBufferEntries [Buf.mk 1 1].

(** C3 on the code: for the summary of the one sample [(1, 1)], whose
    soft-compressed form is itself, [GenerateBoundaries(2)] returns
    [[0, 1]] and not [[1]]: the output is one zero longer than the
    compressed entry count and its element 0 is the padding. *)
Theorem GenerateBoundaries_pads :
  compress single 2 (ApproximationError single + 1 / F64.of_int 2)%float = Done single /\
  GenerateBoundaries single 2 = Done [0%float; 1%float] /\
  map value (entries single) = [1%float].
Proof. repeat split. Qed.

(** ** C2: what [GenerateBoundaries] does to its receiver *)

Definition five_store : Heap.store := {[ 0%nat := entries five ]}.

Definition five_receiver : Heap.Summary :=
  {| Heap.entries := {| Heap.base := 0; Heap.len := 5 |} |}.

(** C2 on the code: the receiver holding the five samples of weight
    one shows the values [1, 2, 3, 4, 5] before [GenerateBoundaries(2)]
    and [1, 4, 5, 4, 5] after it. The compression runs on a summary
    that shares the receiver's backing array, so its in-place writes
    are the receiver's. *)
Theorem GenerateBoundaries_writes_receiver :
  map value (Heap.view five_store (Heap.entries five_receiver))
  = map F64.of_int [1; 2; 3; 4; 5] /\
  exists h' out,
    Heap.GenerateBoundaries five_store five_receiver 2 = Done (h', out) /\
    map value (Heap.view h' (Heap.entries five_receiver))
    = map F64.of_int [1; 4; 5; 4; 5] /\
    Heap.view h' (Heap.entries five_receiver)
    <> Heap.view five_store (Heap.entries five_receiver).
Proof.
  split; [vm_compute; reflexivity|].
  eexists _, _. split; [vm_compute; reflexivity|].
  split; [vm_compute; reflexivity|].
  vm_compute. intros H. discriminate H.
Qed.

(** * Further properties of the code *)

From Stdlib Require Import Sorted.

(** ** [compress]: what is kept *)

Section CompressKeeps.
Variables (sizeHint addStep : Z) (epsDelta : float).

(** One iteration, in full: the entry at the new read index is copied
    to the write index. *)
Lemma compress_body_copy es ri wi acc :
  Forall self_equal es -> (ri + 1 < length es)%nat -> (wi <= ri + 1)%nat ->
  exists ri' acc' c,
    compress_body sizeHint addStep epsDelta es ri wi acc
    = Done (<[wi := c]> es, ri', acc') /\
    (ri < ri' < length es)%nat /\ es !! ri' = Some c.
Proof.
  intros Hse Hri Hwi. unfold compress_body.
  destruct (scan_Done sizeHint addStep epsDelta (length es) es ri (ri + 1) acc)
    as (ni & acc' & -> & Hni); [lia..|].
  simpl.
  destruct (read_lt es ri) as (a & -> & Ha); [lia|]. simpl.
  destruct (read_lt es (ni - 1)) as (b & -> & Hb); [lia|]. simpl.
  set (ri' := if SumEntry_eqb a b then (ri + 1)%nat else (ni - 1)%nat).
  assert (Hri' : (ri < ri' < length es)%nat).
  { subst ri'. destruct (SumEntry_eqb a b) eqn:Hab; [lia|].
    destruct (decide (ni = ri + 1)%nat) as [->|Hne]; [|lia].
    replace (ri + 1 - 1)%nat with ri in Hb by lia.
    assert (a = b) by congruence. subst b.
    pose proof (Forall_lookup_1 _ _ _ _ Hse Ha) as Hs. unfold self_equal in Hs. congruence. }
  destruct (read_lt es ri') as (c & -> & Hc); [lia|]. simpl.
  rewrite write_lt by lia. simpl.
  exists ri', (wrap64 (acc' - addStep)), c. auto.
Qed.

(** The loop invariant: the slice from [ri] on is still the original,
    and what has been written is a selection of the original entries
    before [ri], in their order, followed by the entry at [ri]. *)
Definition kept (orig es : list SumEntry) (ri wi : nat) : Prop :=
  length es = length orig /\
  (forall j, (ri <= j)%nat -> es !! j = orig !! j) /\
  es !! 0%nat = orig !! 0%nat /\
  (1 <= wi <= ri + 1)%nat /\
  exists pre r, take wi es = pre ++ [r] /\ orig !! ri = Some r /\
                pre `sublist_of` take ri orig.

Lemma kept_step orig es ri wi ri' c :
  kept orig es ri wi -> (ri < ri' < length es)%nat -> es !! ri' = Some c ->
  kept orig (<[wi := c]> es) ri' (wi + 1).
Proof.
  intros (Hl & Hfrom & H0 & Hwi & pre & r & Ht & Hr & Hsub) Hri' Hc.
  assert (Hc' : orig !! ri' = Some c) by (rewrite <- Hfrom by lia; exact Hc).
  split; [now rewrite length_insert|]. split; [|split; [|split; [lia|]]].
  - intros j Hj. destruct (decide (j = wi)) as [->|Hne].
    + rewrite list_lookup_insert_eq by lia.
      assert (wi = ri') by lia. subst wi. now rewrite Hc'.
    + rewrite list_lookup_insert_ne by lia. apply Hfrom. lia.
  - rewrite list_lookup_insert_ne by lia. exact H0.
  - exists (pre ++ [r]), c. split; [|split; [exact Hc'|]].
    + rewrite Nat.add_1_r.
      rewrite (take_S_r _ _ c) by (apply list_lookup_insert_eq; lia).
      rewrite take_insert_ge by lia. now rewrite Ht.
    + rewrite <- (take_drop ri (take ri' orig)).
      rewrite take_take. replace (ri `min` ri')%nat with ri by lia.
      apply sublist_app; [exact Hsub|].
      replace ri' with (ri + (ri' - ri))%nat at 1 by lia.
      rewrite <- take_drop_commute.
      assert (Hd : drop ri orig = r :: drop (S ri) orig).
      { now apply drop_S. }
      rewrite Hd. replace (ri' - ri)%nat with (S (ri' - ri - 1)) by lia. simpl.
      apply sublist_skip, sublist_nil_l.
Qed.

Lemma compress_loop_kept orig fuel es ri wi li acc :
  Forall self_equal es -> kept orig es ri wi -> (ri < length es)%nat ->
  (length es - ri <= fuel)%nat ->
  exists es' wi' li',
    compress_loop sizeHint addStep epsDelta fuel es ri wi li acc = Done (es', wi', li') /\
    kept orig es' (length orig - 1) wi'.
Proof.
  revert es ri wi li acc.
  induction fuel as [|fuel IH]; intros es ri wi li acc Hse Hk Hri Hf; [lia|].
  simpl. destruct (ri + 1 =? length es)%nat eqn:He.
  - apply Nat.eqb_eq in He. exists es, wi, li. split; [reflexivity|].
    destruct Hk as (Hl & ?). replace (length orig - 1)%nat with ri by lia.
    split; assumption.
  - apply Nat.eqb_neq in He.
    pose proof Hk as (Hl & _ & _ & Hwi & _).
    destruct (compress_body_copy es ri wi acc) as (ri1 & acc1 & c & -> & Hr1 & Hc);
      [assumption|lia|lia|].
    simpl.
    apply (IH (<[wi := c]> es) ri1 (wi + 1)%nat ri1 acc1).
    + apply Forall_insert; [exact Hse|]. exact (Forall_lookup_1 _ _ _ _ Hse Hc).
    + now apply kept_step with (ri := ri).
    + rewrite length_insert. lia.
    + rewrite length_insert. lia.
Qed.
End CompressKeeps.

Lemma compress_inplace_kept es sizeHint minEps :
  Forall self_equal es ->
  exists es' wi,
    compress_inplace es sizeHint minEps = Done (es', wi) /\
    take wi es' `sublist_of` es /\
    head (take wi es') = head es /\ last (take wi es') = last es.
Proof.
  intros Hse. unfold compress_inplace.
  destruct (Z.of_nat (length es) <=? maxInt64 sizeHint 2) eqn:Hc.
  { exists es, (length es). rewrite firstn_all. auto. }
  apply Z.leb_gt in Hc.
  assert (Hlen : 2 < Z.of_nat (length es))
    by (unfold maxInt64 in Hc; destruct (2 <? sizeHint) eqn:E; lia).
  assert (Hk0 : kept es es 0 1).
  { destruct es as [|e0 es0]; [simpl in Hlen; lia|].
    split; [reflexivity|]. split; [reflexivity|]. split; [reflexivity|]. split; [lia|].
    exists [], e0. repeat split. simpl. constructor. }
  match goal with |- context [compress_loop ?a ?b ?c ?f es 0 1 1 0] =>
    destruct (compress_loop_Done a b c f es 0 1 1 0)
      as (es1 & wi1 & li1 & Hrun & Hl & Hw & Hli); [assumption|lia|lia|lia|];
    destruct (compress_loop_kept a b c es f es 0 1 1 0)
      as (es2 & wi2 & li2 & Hrun2 & Hk); [assumption|assumption|lia|lia|]
  end.
  rewrite Hrun in Hrun2. inversion Hrun2; subst es2 wi2 li2. clear Hrun2.
  rewrite Hrun. simpl.
  assert (Hli' : (li1 + 1 = length es1)%nat) by lia.
  apply Nat.eqb_eq in Hli'. rewrite Hli'. simpl.
  destruct (decide (wi1 <= length es1)%nat); [|lia].
  exists es1, wi1. split; [reflexivity|].
  destruct Hk as (_ & _ & H0 & Hwi & pre & r & Ht & Hr & Hsub).
  assert (Hes : es = take (length es - 1) es ++ [r]).
  { rewrite <- (take_drop (length es - 1) es) at 1. f_equal.
    rewrite (drop_S _ _ _ Hr). rewrite drop_ge by lia. reflexivity. }
  split; [|split].
  - rewrite Ht. remember (take (length es - 1) es) as front. rewrite Hes.
    apply sublist_app; [exact Hsub|reflexivity].
  - rewrite !head_lookup, lookup_take_lt by lia. exact H0.
  - rewrite Ht, last_snoc, last_lookup.
    replace (Init.Nat.pred (length es)) with (length es - 1)%nat by lia. now rewrite Hr.
Qed.

(** X1: on a summary whose entries equal themselves (no NaN field)
    [compress] returns a selection of the entries it was given, in
    their order, that keeps the first and the last entry; so the
    minimum value, the maximum value and the total weight of the
    summary are unchanged. *)
Theorem compress_keeps_ends (sum : Summary) (k : Z) (e : float) :
  Forall self_equal (entries sum) ->
  exists sum', compress sum k e = Done sum' /\
    entries sum' `sublist_of` entries sum /\
    head (entries sum') = head (entries sum) /\
    last (entries sum') = last (entries sum) /\
    MinValue sum' = MinValue sum /\ MaxValue sum' = MaxValue sum /\
    TotalWeight sum' = TotalWeight sum.
Proof.
  intros Hse. unfold compress.
  destruct (compress_inplace_kept (entries sum) k e Hse) as (es' & wi & -> & Hsub & Hh & Hl).
  simpl. eexists. split; [reflexivity|]. simpl.
  split; [exact Hsub|]. split; [exact Hh|]. split; [exact Hl|].
  unfold MinValue, MaxValue, TotalWeight. simpl. rewrite Hl.
  repeat split.
  destruct (take wi es') as [|a l], (entries sum) as [|b l']; simpl in Hh; congruence.
Qed.

Lemma compress_keeps_ends_witness :
  exists sum', compress five 2 0 = Done sum' /\
    entries sum' `sublist_of` entries five /\
    head (entries sum') = head (entries five) /\
    last (entries sum') = last (entries five) /\
    MinValue sum' = MinValue five /\ MaxValue sum' = MaxValue five /\
    TotalWeight sum' = TotalWeight five.
Proof.
  apply (compress_keeps_ends five 2 0). apply self_equal_check. vm_compute. reflexivity.
Defined.

(** ** [Merge]: sizes and values *)

Section MergeFacts.
Variables baseEntries otherEntries : list SumEntry.

Lemma merge_loop_nil_l l2 n1 n2 :
  merge_loop baseEntries otherEntries [] l2 n1 n2 = residual2 baseEntries n1 l2.
Proof. destruct l2; reflexivity. Qed.

Lemma merge_loop_nil_r l1 n1 n2 :
  merge_loop baseEntries otherEntries l1 [] n1 n2 = residual1 otherEntries n2 l1.
Proof. destruct l1; reflexivity. Qed.

Lemma merge_loop_cons it1 l1 it2 l2 n1 n2 :
  merge_loop baseEntries otherEntries (it1 :: l1) (it2 :: l2) n1 n2 =
  if (value it1 <? value it2)%float then
    {| value := value it1; weight := weight it1;
       minRank := (minRank it1 + n2)%float;
       maxRank := (maxRank it1 + prevMaxRank it2)%float |}
    :: merge_loop baseEntries otherEntries l1 (it2 :: l2) (nextMinRank it1) n2
  else if (value it2 <? value it1)%float then
    {| value := value it2; weight := weight it2;
       minRank := (minRank it2 + n1)%float;
       maxRank := (maxRank it2 + prevMaxRank it1)%float |}
    :: merge_loop baseEntries otherEntries (it1 :: l1) l2 n1 (nextMinRank it2)
  else
    {| value := value it1; weight := (weight it1 + weight it2)%float;
       minRank := (minRank it1 + minRank it2)%float;
       maxRank := (maxRank it1 + maxRank it2)%float |}
    :: merge_loop baseEntries otherEntries l1 l2 (nextMinRank it1) (nextMinRank it2).
Proof. reflexivity. Qed.

(** Induction over the two cursors of the main loop. *)
Lemma merge_loop_ind (P : list SumEntry -> list SumEntry -> float -> float -> Prop) :
  (forall l2 n1 n2, P [] l2 n1 n2) ->
  (forall it1 l1 n1 n2, P (it1 :: l1) [] n1 n2) ->
  (forall it1 l1 it2 l2 n1 n2,
      P l1 (it2 :: l2) (nextMinRank it1) n2 ->
      P (it1 :: l1) l2 n1 (nextMinRank it2) ->
      P l1 l2 (nextMinRank it1) (nextMinRank it2) ->
      P (it1 :: l1) (it2 :: l2) n1 n2) ->
  forall l1 l2 n1 n2, P l1 l2 n1 n2.
Proof.
  intros Hnil Hnil' Hcons. induction l1 as [|it1 l1 IH1]; [exact Hnil|].
  induction l2 as [|it2 l2 IH2]; intros n1 n2; [apply Hnil'|].
  apply Hcons; [apply IH1|apply IH2|apply IH1].
Qed.

Lemma merge_loop_length l1 l2 n1 n2 :
  (length l1 `max` length l2
   <= length (merge_loop baseEntries otherEntries l1 l2 n1 n2)
   <= length l1 + length l2)%nat.
Proof.
  revert l1 l2 n1 n2. apply merge_loop_ind.
  - intros. rewrite merge_loop_nil_l. unfold residual2. rewrite length_map. simpl. lia.
  - intros. rewrite merge_loop_nil_r. unfold residual1. rewrite length_map. simpl. lia.
  - intros it1 l1 it2 l2 n1 n2 H1 H2 H3. rewrite merge_loop_cons.
    destruct (_ <? _)%float; [|destruct (_ <? _)%float]; simpl in *; lia.
Qed.

Lemma residual1_values n2 l1 : map value (residual1 otherEntries n2 l1) = map value l1.
Proof. unfold residual1. rewrite map_map. reflexivity. Qed.

Lemma residual2_values n1 l2 : map value (residual2 baseEntries n1 l2) = map value l2.
Proof. unfold residual2. rewrite map_map. reflexivity. Qed.

Ltac values_from H :=
  let x := fresh "x" in
  let Hx := fresh "Hx" in
  intros x Hx; apply elem_of_cons in Hx as [->|Hx];
  [|apply H in Hx; revert Hx];
  repeat (rewrite elem_of_cons || rewrite elem_of_app); intuition auto.

Lemma merge_loop_values l1 l2 n1 n2 :
  map value l1 `sublist_of` map value (merge_loop baseEntries otherEntries l1 l2 n1 n2) /\
  map value (merge_loop baseEntries otherEntries l1 l2 n1 n2)
    ⊆ map value l1 ++ map value l2.
Proof.
  revert l1 l2 n1 n2. apply merge_loop_ind.
  - intros. rewrite merge_loop_nil_l, residual2_values. split; [apply sublist_nil_l|].
    reflexivity.
  - intros. rewrite merge_loop_nil_r, residual1_values. split; [reflexivity|].
    rewrite app_nil_r. reflexivity.
  - intros it1 l1 it2 l2 n1 n2 [H1 H1'] [H2 H2'] [H3 H3']. rewrite merge_loop_cons.
    destruct (_ <? _)%float; [|destruct (_ <? _)%float]; simpl in *.
    + split; [now apply sublist_skip|]. values_from H1'.
    + split; [now apply sublist_cons|]. values_from H2'.
    + split; [now apply sublist_skip|]. values_from H3'.
Qed.
End MergeFacts.

(** ** float64 addition commutes *)

Lemma SFadd_comm x y : SFadd prec emax x y = SFadd prec emax y x.
Proof.
  destruct x as [sx|sx| |sx mx ex], y as [sy|sy| |sy my ey]; simpl; try reflexivity;
    try (destruct sx, sy; reflexivity).
  rewrite (Z.min_comm ey ex). f_equal. apply Z.add_comm.
Qed.

Lemma F64_add_comm (x y : float) : (x + y = y + x)%float.
Proof. apply Prim2SF_inj. rewrite !add_spec. apply SFadd_comm. Qed.

(** ** [Merge]: the total weight *)

Lemma last_cons_ne {A} (x : A) (l : list A) : l <> [] -> last (x :: l) = last l.
Proof. destruct l; [congruence|reflexivity]. Qed.

Lemma last_map_option {A B} (f : A -> B) (l : list A) :
  last (map f l) = option_map f (last l).
Proof.
  induction l as [|x l IH]; [reflexivity|].
  destruct l as [|y l]; [reflexivity|]. exact IH.
Qed.

Lemma lastMaxRank_cons x l : l <> [] -> lastMaxRank (x :: l) = lastMaxRank l.
Proof. intros H. unfold lastMaxRank. now rewrite last_cons_ne. Qed.

Lemma merge_loop_nonempty baseEntries otherEntries l1 l2 n1 n2 :
  l1 <> [] \/ l2 <> [] -> merge_loop baseEntries otherEntries l1 l2 n1 n2 <> [].
Proof.
  intros H Hnil. apply (f_equal length) in Hnil. simpl in Hnil.
  pose proof (merge_loop_length baseEntries otherEntries l1 l2 n1 n2).
  destruct H as [H|H]; [destruct l1|destruct l2]; simpl in *; try congruence; lia.
Qed.

Lemma merge_loop_lastMaxRank baseEntries otherEntries l1 l2 n1 n2 :
  (l1 <> [] -> lastMaxRank l1 = lastMaxRank baseEntries) ->
  (l2 <> [] -> lastMaxRank l2 = lastMaxRank otherEntries) ->
  l1 <> [] \/ l2 <> [] ->
  lastMaxRank (merge_loop baseEntries otherEntries l1 l2 n1 n2)
  = (lastMaxRank baseEntries + lastMaxRank otherEntries)%float.
Proof.
  revert l1 l2 n1 n2. apply (merge_loop_ind
    (fun l1 l2 n1 n2 =>
       (l1 <> [] -> lastMaxRank l1 = lastMaxRank baseEntries) ->
       (l2 <> [] -> lastMaxRank l2 = lastMaxRank otherEntries) ->
       l1 <> [] \/ l2 <> [] ->
       lastMaxRank (merge_loop baseEntries otherEntries l1 l2 n1 n2)
       = (lastMaxRank baseEntries + lastMaxRank otherEntries)%float)).
  - intros l2 n1 n2 _ H2 [H|H]; [congruence|]. rewrite merge_loop_nil_l.
    rewrite <- (H2 H). unfold residual2, lastMaxRank. rewrite last_map_option.
    destruct (last l2) eqn:E; [apply F64_add_comm|].
    apply last_None in E. congruence.
  - intros it1 l1 n1 n2 H1 _ _. rewrite merge_loop_nil_r.
    rewrite <- H1 by discriminate. unfold residual1, lastMaxRank. rewrite last_map_option.
    destruct (last (it1 :: l1)) eqn:E; [reflexivity|].
    apply last_None in E. congruence.
  - intros it1 l1 it2 l2 n1 n2 IH1 IH2 IH3 H1 H2 _. rewrite merge_loop_cons.
    assert (H1' : l1 <> [] -> lastMaxRank l1 = lastMaxRank baseEntries).
    { intros Hne. rewrite <- H1 by discriminate. symmetry. now apply lastMaxRank_cons. }
    assert (H2' : l2 <> [] -> lastMaxRank l2 = lastMaxRank otherEntries).
    { intros Hne. rewrite <- H2 by discriminate. symmetry. now apply lastMaxRank_cons. }
    destruct (_ <? _)%float; [|destruct (_ <? _)%float].
    + rewrite lastMaxRank_cons by (apply merge_loop_nonempty; right; discriminate).
      apply IH1; [auto|auto|right; discriminate].
    + rewrite lastMaxRank_cons by (apply merge_loop_nonempty; left; discriminate).
      apply IH2; [auto|auto|left; discriminate].
    + destruct l1 as [|it1' l1]; [destruct l2 as [|it2' l2]|].
      * rewrite <- H1, <- H2 by discriminate. reflexivity.
      * rewrite lastMaxRank_cons by (apply merge_loop_nonempty; right; discriminate).
        apply IH3; [auto|auto|right; discriminate].
      * rewrite lastMaxRank_cons by (apply merge_loop_nonempty; left; discriminate).
        apply IH3; [auto|auto|left; discriminate].
Qed.

(** X2: merging two non-empty summaries adds their total weights, by
    one float64 addition. *)
Theorem Merge_TotalWeight (sum other : Summary) :
  entries sum <> [] -> entries other <> [] ->
  TotalWeight (Merge sum other) = (TotalWeight sum + TotalWeight other)%float.
Proof.
  destruct sum as [es], other as [os]. unfold Merge, TotalWeight. cbn [entries].
  intros Hs Ho. destruct os as [|o os]; [congruence|]. destruct es as [|e es]; [congruence|].
  cbv zeta. cbn [entries]. apply (merge_loop_lastMaxRank (e :: es) (o :: os)); auto.
Qed.

Lemma Merge_TotalWeight_witness :
  TotalWeight (Merge five single) = (TotalWeight five + TotalWeight single)%float.
Proof. apply (Merge_TotalWeight five single); discriminate. Defined.

(** X3: [Merge] writes at most [len(base) + len(other)] entries, the
    length of the slice it allocates, and at least as many as the longer
    operand has; every value of the receiver is kept, in order, and
    every value of the result comes from one of the operands. With an
    empty operand the result is the other operand. *)
Theorem Merge_size_values (sum other : Summary) :
  Merge sum {| entries := [] |} = sum /\
  Merge {| entries := [] |} other = other /\
  (length (entries sum) `max` length (entries other)
   <= length (entries (Merge sum other))
   <= length (entries sum) + length (entries other))%nat /\
  map value (entries sum) `sublist_of` map value (entries (Merge sum other)) /\
  map value (entries (Merge sum other))
    ⊆ map value (entries sum) ++ map value (entries other).
Proof.
  split; [reflexivity|]. split; [destruct other as [[|o os]]; reflexivity|].
  destruct sum as [es], other as [os]. unfold Merge. cbn [entries].
  destruct os as [|o os]; [|destruct es as [|e es]].
  - cbn [entries length map]. rewrite app_nil_r. split; [lia|]. split; reflexivity.
  - cbn [entries length map]. split; [lia|]. split; [apply sublist_nil_l|reflexivity].
  - cbv zeta. cbn [entries].
    split; [apply merge_loop_length|apply merge_loop_values].
Qed.

(** ** [buildFromBufferEntries]: the ranks it assigns *)

(** Each entry's ranks chain onto the previous entry's: [minRank] is the
    [maxRank] before it, starting from [start]. *)
Fixpoint chained (start : float) (es : list SumEntry) : Prop :=
  match es with
  | [] => True
  | e :: es' =>
      minRank e = start /\ maxRank e = (minRank e + weight e)%float /\
      chained (maxRank e) es'
  end.

Lemma build_loop_chained cumWeight bes : chained cumWeight (build_loop cumWeight bes).
Proof.
  revert cumWeight. induction bes as [|b bes IH]; intros cumWeight; simpl; auto.
Qed.

Lemma build_loop_fields cumWeight bes :
  map value (build_loop cumWeight bes) = map Buf.value bes /\
  map weight (build_loop cumWeight bes) = map Buf.weight bes.
Proof.
  revert cumWeight. induction bes as [|b bes IH]; intros cumWeight; simpl; [auto|].
  destruct (IH (cumWeight + Buf.weight b)%float) as [-> ->]. auto.
Qed.

Lemma build_loop_lastMaxRank cumWeight b bes :
  lastMaxRank (build_loop cumWeight (b :: bes))
  = fold_left (fun c w => (c + w)%float) (map Buf.weight (b :: bes)) cumWeight.
Proof.
  revert cumWeight b. induction bes as [|b' bes IH]; intros cumWeight b; [reflexivity|].
  change (build_loop cumWeight (b :: b' :: bes))
    with ({| value := Buf.value b; weight := Buf.weight b; minRank := cumWeight;
             maxRank := (cumWeight + Buf.weight b)%float |}
          :: build_loop (cumWeight + Buf.weight b)%float (b' :: bes)).
  rewrite lastMaxRank_cons by discriminate. rewrite IH. reflexivity.
Qed.

(** X4: [buildFromBufferEntries] copies the values and weights of the
    buffer in order, gives the first entry [minRank] 0, every entry
    [maxRank = minRank + weight] and every later entry the [maxRank] of
    the entry before it as [minRank]; the total weight of the summary is
    the left-to-right float64 sum of the buffer's weights. *)
Theorem buildFromBufferEntries_ranks (bes : list bufEntry) :
  map value (entries (buildFromBufferEntries bes)) = map Buf.value bes /\
  map weight (entries (buildFromBufferEntries bes)) = map Buf.weight bes /\
  chained 0%float (entries (buildFromBufferEntries bes)) /\
  TotalWeight (buildFromBufferEntries bes)
  = fold_left (fun c w => (c + w)%float) (map Buf.weight bes) 0%float.
Proof.
  unfold buildFromBufferEntries. cbn [entries].
  split; [apply build_loop_fields|]. split; [apply build_loop_fields|].
  split; [apply build_loop_chained|].
  destruct bes as [|b bes]; [reflexivity|]. apply build_loop_lastMaxRank.
Qed.

(** ** Slices in the store: [compress] and [clone] *)

Lemma Heap_compress_inv h sum sizeHint minEps h' sum' :
  Heap.compress h sum sizeHint minEps = Done (h', sum') ->
  exists arr es wi,
    h !! Heap.base (Heap.entries sum) = Some arr /\
    compress_inplace (take (Heap.len (Heap.entries sum)) arr) sizeHint minEps = Done (es, wi) /\
    h' = <[Heap.base (Heap.entries sum) := es ++ drop (Heap.len (Heap.entries sum)) arr]> h /\
    sum' = Heap.mk (Heap.mkSlice (Heap.base (Heap.entries sum)) wi) /\
    (wi <= length es)%nat.
Proof.
  unfold Heap.compress. destruct (h !! Heap.base (Heap.entries sum)) as [arr|]; [|discriminate].
  intros H. apply bind_Done in H as ([es wi] & Hc & H). simpl in H. inversion H; subst.
  exists arr, es, wi. repeat split; try assumption.
  apply compress_inplace_length in Hc as (Hl & Hw & _). lia.
Qed.

Lemma Heap_compress_view (h h' : Heap.store) (sum sum' : Heap.Summary)
    (sizeHint : Z) (minEps : float) :
  Heap.compress h sum sizeHint minEps = Done (h', sum') ->
  compress {| entries := Heap.view h (Heap.entries sum) |} sizeHint minEps
  = Done {| entries := Heap.view h' (Heap.entries sum') |} /\
  Heap.base (Heap.entries sum') = Heap.base (Heap.entries sum) /\
  forall b, b <> Heap.base (Heap.entries sum) -> h' !! b = h !! b.
Proof.
  intros H. apply Heap_compress_inv in H as (arr & es & wi & Harr & Hc & -> & -> & Hwi).
  unfold compress, Heap.view. cbn [entries Heap.entries Heap.base Heap.len].
  rewrite Harr. cbn [default from_option id]. rewrite Hc. unfold mbind, outcome_bind. cbv beta iota.
  unfold Heap.store in *; rewrite lookup_insert_eq. cbn [default from_option id]. rewrite take_app_le by exact Hwi.
  split; [reflexivity|]. split; [reflexivity|].
  intros b Hb. unfold Heap.store in *. now rewrite lookup_insert_ne.
Qed.

(** X5: the store version of [compress] computes what [compress] does
    on the entries the receiver shows. Where [compress] returns, the
    store version returns, the receiver then shows the compressed
    entries from the same backing array, that array has kept its
    length and every other array of the store is as before; where
    [compress] panics, so does the store version. *)
Theorem Heap_compress_refines (h : Heap.store) (sum : Heap.Summary)
    (sizeHint : Z) (minEps : float) (arr : list SumEntry) :
  h !! Heap.base (Heap.entries sum) = Some arr ->
  match compress {| entries := Heap.view h (Heap.entries sum) |} sizeHint minEps with
  | Done r =>
      exists h' sum',
        Heap.compress h sum sizeHint minEps = Done (h', sum') /\
        Heap.view h' (Heap.entries sum') = entries r /\
        Heap.base (Heap.entries sum') = Heap.base (Heap.entries sum) /\
        length <$> h' !! Heap.base (Heap.entries sum) = Some (length arr) /\
        forall b, b <> Heap.base (Heap.entries sum) -> h' !! b = h !! b
  | Panic => Heap.compress h sum sizeHint minEps = Panic
  | OutOfFuel => False
  end.
Proof.
  intros Harr.
  pose proof (compress_never_fuel {| entries := Heap.view h (Heap.entries sum) |}
                sizeHint minEps) as Hnf.
  unfold compress, Heap.compress, Heap.view in *. cbn [entries] in *.
  rewrite Harr in *. cbn [default from_option id] in *.
  destruct (compress_inplace (take (Heap.len (Heap.entries sum)) arr) sizeHint minEps)
    as [[es wi]| |] eqn:Hc; unfold mbind, outcome_bind in *; cbv beta iota in *;
    [|reflexivity|congruence].
  apply compress_inplace_length in Hc as (Hl & Hw & _).
  eexists _, _. split; [reflexivity|].
  cbn [entries Heap.entries Heap.base Heap.len].
  unfold Heap.store in *. rewrite lookup_insert_eq. cbn [default from_option id].
  split; [apply take_app_le; lia|]. split; [reflexivity|]. split.
  - cbn. f_equal. rewrite length_app, length_drop, Hl, length_take. lia.
  - intros b Hb. now rewrite lookup_insert_ne.
Qed.

Lemma Heap_compress_refines_witness :
  match compress {| entries := Heap.view five_store (Heap.entries five_receiver) |} 2 0 with
  | Done r =>
      exists h' sum',
        Heap.compress five_store five_receiver 2 0 = Done (h', sum') /\
        Heap.view h' (Heap.entries sum') = entries r /\
        Heap.base (Heap.entries sum') = Heap.base (Heap.entries five_receiver) /\
        length <$> h' !! Heap.base (Heap.entries five_receiver)
        = Some (length (entries five)) /\
        forall b, b <> Heap.base (Heap.entries five_receiver) -> h' !! b = five_store !! b
  | Panic => Heap.compress five_store five_receiver 2 0 = Panic
  | OutOfFuel => False
  end.
Proof.
  apply (Heap_compress_refines five_store five_receiver 2 0 (entries five)).
  vm_compute. reflexivity.
Defined.

(** X6: [clone] gives a summary that shows the same entries from an
    array of its own: compressing the clone changes nothing that any
    slice of the store before the call shows, the cloned summary
    included. *)
Theorem clone_is_independent (h h2 : Heap.store) (sum c' : Heap.Summary)
    (sizeHint : Z) (minEps : float) :
  Heap.compress (fst (Heap.clone h sum)) (snd (Heap.clone h sum)) sizeHint minEps
  = Done (h2, c') ->
  Heap.view (fst (Heap.clone h sum)) (Heap.entries (snd (Heap.clone h sum)))
  = Heap.view h (Heap.entries sum) /\
  forall s, Heap.base s ∈ dom h -> Heap.view h2 s = Heap.view h s.
Proof.
  intros H. split.
  - unfold Heap.clone, Heap.view. cbn [fst snd Heap.entries Heap.base Heap.len].
    unfold Heap.store in *; rewrite lookup_insert_eq. cbn [default from_option id]. rewrite take_take. f_equal. lia.
  - intros s Hs. apply Heap_compress_inv in H as (arr & es & wi & _ & _ & -> & _ & _).
    unfold Heap.clone, Heap.view. cbn [fst snd Heap.entries Heap.base Heap.len].
    assert (Hne : fresh (dom h) <> Heap.base s).
    { intros E. rewrite <- E in Hs. exact (is_fresh (dom h) Hs). }
    unfold Heap.store in *; rewrite lookup_insert_ne by exact Hne. unfold Heap.clone. cbn [fst].
    unfold Heap.store in *; rewrite lookup_insert_ne by exact Hne. reflexivity.
Qed.

Definition five_clone_compressed : Heap.store * Heap.Summary :=
  match Heap.compress (fst (Heap.clone five_store five_receiver))
                      (snd (Heap.clone five_store five_receiver)) 2 0 with
  | Done p => p
  | _ => (five_store, five_receiver)
  end.

Lemma clone_is_independent_witness :
  Heap.view (fst (Heap.clone five_store five_receiver))
            (Heap.entries (snd (Heap.clone five_store five_receiver)))
  = Heap.view five_store (Heap.entries five_receiver) /\
  forall s, Heap.base s ∈ dom five_store ->
            Heap.view (fst five_clone_compressed) s = Heap.view five_store s.
Proof.
  apply (clone_is_independent five_store (fst five_clone_compressed) five_receiver
           (snd five_clone_compressed) 2 0).
  vm_compute. reflexivity.
Defined.

(** ** [GenerateBoundaries]: the returned slice *)

Lemma append_values (es : list SumEntry) (output : list float) :
  fold_left (fun output entry => output ++ [value entry]) es output
  = output ++ map value es.
Proof.
  revert output. induction es as [|x xs IH]; intros output; simpl.
  - now rewrite app_nil_r.
  - rewrite IH. now rewrite <- app_assoc.
Qed.

Lemma sublist_map {A B} (f : A -> B) (l k : list A) :
  l `sublist_of` k -> map f l `sublist_of` map f k.
Proof. induction 1; simpl; constructor; assumption. Qed.

Lemma head_map_option {A B} (f : A -> B) (l : list A) :
  head (map f l) = option_map f (head l).
Proof. destruct l; reflexivity. Qed.

(** X7: on a non-empty summary whose entries have no NaN field
    [GenerateBoundaries] returns, for every argument, a slice of twice
    the length of the compressed summary: first that many zeros, then
    the compressed values, which are a selection of the summary's
    values in order that starts with its minimum and ends with its
    maximum. *)
Theorem GenerateBoundaries_shape (sum : Summary) (numBoundaries : Z) :
  Forall self_equal (entries sum) -> entries sum <> [] ->
  exists vals,
    GenerateBoundaries sum numBoundaries = Done (replicate (length vals) 0%float ++ vals) /\
    vals `sublist_of` map value (entries sum) /\
    head vals = Some (MinValue sum) /\ last vals = Some (MaxValue sum).
Proof.
  intros Hse Hne. unfold GenerateBoundaries, buildFromSummaryEntries, compress.
  destruct (entries sum) as [|e0 es] eqn:Hes; [congruence|]. cbn [entries].
  match goal with |- context [compress_inplace _ ?k ?e] =>
    destruct (compress_inplace_kept (e0 :: es) k e Hse) as (es' & wi & -> & Hsub & Hh & Hl)
  end.
  unfold mbind, outcome_bind. cbv beta iota. cbn [entries].
  exists (map value (take wi es')). rewrite append_values, length_map.
  split; [reflexivity|]. split; [now apply sublist_map|].
  rewrite head_map_option, last_map_option, Hh, Hl.
  unfold MinValue, MaxValue. rewrite Hes. split; [reflexivity|].
  destruct (last (e0 :: es)) eqn:E; [reflexivity|]. apply last_None in E. congruence.
Qed.

Lemma GenerateBoundaries_shape_witness :
  exists vals,
    GenerateBoundaries five 2 = Done (replicate (length vals) 0%float ++ vals) /\
    vals `sublist_of` map value (entries five) /\
    head vals = Some (MinValue five) /\ last vals = Some (MaxValue five).
Proof.
  apply (GenerateBoundaries_shape five 2); [|discriminate].
  apply self_equal_check. vm_compute. reflexivity.
Defined.

(** X8: the store version of [GenerateBoundaries] returns the slice
    that [GenerateBoundaries] computes from the entries the receiver
    shows, and the only array of the store it can change is the
    receiver's own. *)
Theorem Heap_GenerateBoundaries_refines (h h' : Heap.store) (sum : Heap.Summary)
    (numBoundaries : Z) (out : list float) :
  Heap.GenerateBoundaries h sum numBoundaries = Done (h', out) ->
  (Heap.len (Heap.entries sum) <= length (default [] (h !! Heap.base (Heap.entries sum))))%nat ->
  GenerateBoundaries {| entries := Heap.view h (Heap.entries sum) |} numBoundaries = Done out /\
  forall b, b <> Heap.base (Heap.entries sum) -> h' !! b = h !! b.
Proof.
  unfold Heap.GenerateBoundaries, Heap.buildFromSummaryEntries.
  destruct (Heap.len (Heap.entries sum) =? 0)%nat eqn:E0.
  - intros H _. inversion H; subst. apply Nat.eqb_eq in E0.
    unfold GenerateBoundaries, Heap.view. rewrite E0. cbn [entries take]. auto.
  - intros H Hlen. apply Nat.eqb_neq in E0.
    apply bind_Done in H as ([h1 c] & Hc & H). cbv beta iota in H. inversion H; subst. clear H.
    cbn [Heap.entries] in Hc.
    destruct (Heap_compress_view _ _ _ _ _ _ Hc) as (Hp & _ & Hother).
    cbn [Heap.entries] in Hp, Hother. split; [|exact Hother].
    unfold GenerateBoundaries, buildFromSummaryEntries. cbn [entries].
    destruct (Heap.view h (Heap.entries sum)) as [|e0 es] eqn:Hv.
    { apply (f_equal length) in Hv. unfold Heap.view in Hv. rewrite length_take in Hv.
      simpl in Hv. lia. }
    rewrite Hp. reflexivity.
Qed.

Definition five_boundaries : Heap.store * list float :=
  match Heap.GenerateBoundaries five_store five_receiver 2 with
  | Done p => p
  | _ => (five_store, [])
  end.

Lemma Heap_GenerateBoundaries_refines_witness :
  GenerateBoundaries {| entries := Heap.view five_store (Heap.entries five_receiver) |} 2
  = Done (snd five_boundaries) /\
  forall b, b <> Heap.base (Heap.entries five_receiver) ->
            fst five_boundaries !! b = five_store !! b.
Proof.
  apply (Heap_GenerateBoundaries_refines five_store (fst five_boundaries) five_receiver 2
           (snd five_boundaries)).
  - vm_compute. reflexivity.
  - vm_compute. lia.
Defined.

(** ** The order of float64 values *)

Lemma SFcompare_antisym a b :
  SFcompare b a = option_map CompOpp (SFcompare a b).
Proof.
  destruct a as [sa|sa| |sa ma ea], b as [sb|sb| |sb mb eb]; simpl; try reflexivity;
    try (destruct sa; reflexivity); try (destruct sb; reflexivity);
    try (destruct sa, sb; reflexivity).
  destruct sa, sb; try reflexivity; f_equal;
    rewrite (Z.compare_antisym ea eb); destruct (ea ?= eb); simpl; try reflexivity;
    rewrite ?CompOpp_involutive;
    first [ symmetry; apply (Pos.compare_cont_antisym ma mb Eq)
          | apply (Pos.compare_cont_antisym mb ma Eq) ].
Qed.

Lemma SFcompare_Eq_cong a b z :
  SFcompare a b = Some Eq -> SFcompare a z = SFcompare b z.
Proof.
  destruct a as [sa|sa| |sa ma ea], b as [sb|sb| |sb mb eb]; simpl; intros H;
    try discriminate H;
    try (destruct sa; discriminate H); try (destruct sb; discriminate H).
  - destruct z; reflexivity.
  - destruct sa, sb; try discriminate H; reflexivity.
  - assert (sa = sb /\ ea = eb /\ ma = mb) as (-> & -> & ->).
    { destruct sa, sb; try discriminate; destruct (ea ?= eb) eqn:E; try discriminate;
        apply Z.compare_eq in E; (split; [reflexivity|split; [exact E|]]);
        apply Pos.compare_eq; unfold Pos.compare;
        destruct (Pos.compare_cont Eq ma mb); simpl in H; congruence. }
    reflexivity.
Qed.

(** A float that is not NaN: it compares equal to itself. *)
Definition notnan (x : float) : Prop := (x =? x)%float = true.

Lemma notnan_compare x y :
  notnan x -> notnan y -> exists c, SFcompare (Prim2SF x) (Prim2SF y) = Some c.
Proof.
  unfold notnan. rewrite !FloatAxioms.eqb_spec. unfold SFeqb.
  destruct (Prim2SF x), (Prim2SF y); simpl; try discriminate; eauto.
Qed.

Lemma tie_is_equal x y :
  notnan x -> notnan y -> (x <? y)%float = false -> (y <? x)%float = false ->
  SFcompare (Prim2SF x) (Prim2SF y) = Some Eq.
Proof.
  intros Hx Hy. destruct (notnan_compare x y Hx Hy) as [c Hc].
  rewrite !FloatAxioms.ltb_spec. unfold SFltb. rewrite (SFcompare_antisym (Prim2SF x) (Prim2SF y)), Hc.
  destruct c; simpl; congruence.
Qed.

Lemma tie_ltb x y z :
  notnan x -> notnan y -> (x <? y)%float = false -> (y <? x)%float = false ->
  (y <? z)%float = true -> (x <? z)%float = true.
Proof.
  intros Hx Hy H1 H2. pose proof (tie_is_equal x y Hx Hy H1 H2) as He.
  rewrite !FloatAxioms.ltb_spec. unfold SFltb. now rewrite (SFcompare_Eq_cong _ _ _ He).
Qed.

(** ** [Merge]: sorted values *)

(** Strictly increasing, entry by entry, in the float64 order. *)
Definition increasing (vs : list float) : Prop :=
  Sorted (fun a b => (a <? b)%float = true) vs.

Section MergeSorted.
Variables baseEntries otherEntries : list SumEntry.

Lemma merge_loop_HdRel x l1 l2 n1 n2 :
  HdRel (fun a b => (a <? b)%float = true) x (map value l1) ->
  HdRel (fun a b => (a <? b)%float = true) x (map value l2) ->
  HdRel (fun a b => (a <? b)%float = true) x
        (map value (merge_loop baseEntries otherEntries l1 l2 n1 n2)).
Proof.
  intros H1 H2. destruct l1 as [|it1 l1].
  { now rewrite merge_loop_nil_l, residual2_values. }
  destruct l2 as [|it2 l2].
  { now rewrite merge_loop_nil_r, residual1_values. }
  rewrite merge_loop_cons. inversion H1; inversion H2; subst.
  destruct (value it1 <? value it2)%float;
    [|destruct (value it2 <? value it1)%float]; simpl; constructor; assumption.
Qed.

Lemma merge_loop_increasing l1 l2 n1 n2 :
  increasing (map value l1) -> increasing (map value l2) ->
  Forall notnan (map value l1) -> Forall notnan (map value l2) ->
  increasing (map value (merge_loop baseEntries otherEntries l1 l2 n1 n2)).
Proof.
  unfold increasing. revert l1 l2 n1 n2. apply (merge_loop_ind
    (fun l1 l2 n1 n2 =>
       Sorted _ (map value l1) -> Sorted _ (map value l2) ->
       Forall notnan (map value l1) -> Forall notnan (map value l2) ->
       Sorted _ (map value (merge_loop baseEntries otherEntries l1 l2 n1 n2)))).
  - intros. now rewrite merge_loop_nil_l, residual2_values.
  - intros. now rewrite merge_loop_nil_r, residual1_values.
  - intros it1 l1 it2 l2 n1 n2 IH1 IH2 IH3 S1 S2 N1 N2. rewrite merge_loop_cons.
    pose proof S1 as S1'. pose proof S2 as S2'. pose proof N1 as N1'. pose proof N2 as N2'.
    simpl in S1', S2', N1', N2'.
    apply Sorted_inv in S1' as [S1t H1]. apply Sorted_inv in S2' as [S2t H2].
    apply Forall_cons in N1' as [Nv1 N1t]. apply Forall_cons in N2' as [Nv2 N2t].
    destruct (value it1 <? value it2)%float eqn:E12;
      [|destruct (value it2 <? value it1)%float eqn:E21]; rewrite map_cons; constructor.
    + apply IH1; assumption.
    + apply merge_loop_HdRel; [exact H1|]. simpl. constructor. exact E12.
    + apply IH2; assumption.
    + apply merge_loop_HdRel; [|exact H2]. simpl. constructor. exact E21.
    + apply IH3; assumption.
    + apply merge_loop_HdRel; [exact H1|].
      destruct l2 as [|it2' l2]; simpl; constructor.
      inversion H2; subst. now apply (tie_ltb (value it1) (value it2)).
Qed.
End MergeSorted.

(** X9: when the values of both operands are strictly increasing and
    none is NaN, the values of the merged summary are strictly
    increasing. *)
Theorem Merge_increasing (sum other : Summary) :
  increasing (map value (entries sum)) -> increasing (map value (entries other)) ->
  Forall notnan (map value (entries sum)) -> Forall notnan (map value (entries other)) ->
  increasing (map value (entries (Merge sum other))).
Proof.
  destruct sum as [es], other as [os]. unfold Merge. cbn [entries].
  intros S1 S2 N1 N2. destruct os as [|o os]; [exact S1|].
  destruct es as [|e es]; [exact S2|].
  cbv zeta. cbn [entries]. now apply merge_loop_increasing.
Qed.

Lemma Merge_increasing_witness :
  increasing (map value (entries (Merge five single))).
Proof.
  apply (Merge_increasing five single).
  - repeat constructor.
  - repeat constructor.
  - repeat constructor.
  - repeat constructor.
Defined.

(** ** float64 arithmetic on integers

    Integers of magnitude below 2^53 are float64 values, and float64
    addition, subtraction and comparison are exact on them as long as
    the result stays below 2^53. This is read off the specification of
    the primitive operations ([SpecFloat]). *)

Lemma digits2_pos_log2 p : Zpos (SpecFloat.digits2_pos p) = Z.log2 (Zpos p) + 1.
Proof.
  induction p as [p IH|p IH|]; simpl digits2_pos; try reflexivity.
  - rewrite Pos2Z.inj_succ, IH. 
    change (Z.pos p~1) with (2 * Z.pos p + 1). rewrite Z.log2_succ_double by lia. lia.
  - rewrite Pos2Z.inj_succ, IH.
    change (Z.pos p~0) with (2 * Z.pos p). rewrite Z.log2_double by lia. lia.
Qed.

Lemma iter_pos_nat {A} (f : A -> A) p x :
  SpecFloat.iter_pos f p x = Nat.iter (Pos.to_nat p) f x.
Proof.
  revert x. induction p as [p IH|p IH|]; intros x; simpl SpecFloat.iter_pos.
  - rewrite !IH. rewrite Pos2Nat.inj_xI. 
    rewrite <- Nat.iter_add. rewrite <- Nat.iter_succ_r. f_equal. lia.
  - rewrite !IH. rewrite Pos2Nat.inj_xO. rewrite <- Nat.iter_add. f_equal. lia.
  - reflexivity.
Qed.

Lemma shr_exact (k : nat) (m : Z) :
  0 < m -> (2 ^ Z.of_nat k | m) ->
  Nat.iter k shr_1 {| shr_m := m; shr_r := false; shr_s := false |}
  = {| shr_m := m / 2 ^ Z.of_nat k; shr_r := false; shr_s := false |}.
Proof.
  induction k as [|k IH]; intros Hm Hd.
  - simpl. now rewrite Z.div_1_r.
  - rewrite Nat.iter_succ. rewrite IH; [|lia|].
    2:{ destruct Hd as [q Hq]. exists (2 * q). rewrite Hq. rewrite Nat2Z.inj_succ, Z.pow_succ_r by lia. ring. }
    destruct Hd as [q Hq]. rewrite Nat2Z.inj_succ, Z.pow_succ_r in * by lia.
    assert (Hp : 0 < 2 ^ Z.of_nat k) by (apply Z.pow_pos_nonneg; lia).
    assert (E1 : m / 2 ^ Z.of_nat k = 2 * q).
    { rewrite Hq. replace (q * (2 * 2 ^ Z.of_nat k)) with ((2 * q) * 2 ^ Z.of_nat k) by ring.
      apply Z.div_mul. lia. }
    assert (E2 : m / (2 * 2 ^ Z.of_nat k) = q).
    { rewrite Hq. apply Z.div_mul. lia. }
    rewrite E1, E2. assert (0 < q) by nia.
    destruct q as [|q|q]; try lia. reflexivity.
Qed.

Lemma fexp_eq d : fexp prec emax d = Z.max (d - 53) (-1074).
Proof. reflexivity. Qed.

Lemma pos_div_pow2 (m : positive) (n : Z) :
  0 <= n -> (2 ^ n | Zpos m) -> 0 < Zpos m / 2 ^ n /\ Zpos m = (Zpos m / 2 ^ n) * 2 ^ n.
Proof.
  intros Hn [q Hq]. assert (0 < 2 ^ n) by (apply Z.pow_pos_nonneg; lia).
  rewrite Hq at 1 3. rewrite Z.div_mul by lia. split; nia.
Qed.

Lemma shr_record_of_loc_exact m : shr_record_of_loc m loc_Exact = {| shr_m := m; shr_r := false; shr_s := false |}.
Proof. reflexivity. Qed.

Lemma binary_round_aux_exact (s : bool) (m : positive) (e0 : Z) :
  let e := Z.log2 (Zpos m) + 1 + e0 - 53 in
  -1074 <= e <= 971 -> e0 <= e -> (2 ^ (e - e0) | Zpos m) ->
  binary_round_aux prec emax s (Zpos m) e0 loc_Exact
  = S754_finite s (Z.to_pos (Zpos m / 2 ^ (e - e0))) e.
Proof.
  intros e He He0 Hd.
  destruct (pos_div_pow2 m (e - e0)) as [Hq Hm]; [lia|assumption|].
  remember (Zpos m / 2 ^ (e - e0)) as q eqn:Eqq.
  assert (Hlq : Z.log2 q + 1 + e - 53 = e).
  { assert (Z.log2 (Zpos m) = Z.log2 q + (e - e0)).
    { rewrite Hm. rewrite Z.log2_mul_pow2; lia. }
    subst e. lia. }
  unfold binary_round_aux, shr_fexp.
  rewrite shr_record_of_loc_exact.
  change (Zdigits2 (Zpos m)) with (Zpos (digits2_pos m)).
  rewrite digits2_pos_log2, fexp_eq.
  replace (Z.max (Z.log2 (Z.pos m) + 1 + e0 - 53) (-1074)) with e by (subst e; lia).
  assert (Hshr : shr {| shr_m := Zpos m; shr_r := false; shr_s := false |} e0 (e - e0)
                 = ({| shr_m := q; shr_r := false; shr_s := false |}, e)).
  { unfold shr. destruct (e - e0) as [|n|n] eqn:En; try lia.
    - f_equal; [|lia]. f_equal. subst q. rewrite ?En. now rewrite Z.div_1_r.
    - rewrite iter_pos_nat. rewrite shr_exact; [|lia|].
      + f_equal; [|lia]. rewrite positive_nat_Z. subst q. now rewrite ?En.
      + rewrite positive_nat_Z. exact Hd. }
  rewrite Hshr. cbn [shr_m loc_of_shr_record round_nearest_even].
  clear Eqq Hshr Hm. destruct q as [|q'|q']; try lia.
  rewrite shr_record_of_loc_exact.
  change (Zdigits2 (Zpos q')) with (Zpos (digits2_pos q')).
  rewrite digits2_pos_log2, fexp_eq.
  replace (Z.max (Z.log2 (Z.pos q') + 1 + e - 53) (-1074)) with e by lia.
  unfold shr. rewrite Z.sub_diag. cbn [shr_m].
  replace (e <=? emax - prec) with true by (symmetry; apply Z.leb_le; change (emax - prec) with 971; lia).
  reflexivity.
Qed.

(** The canonical binary64 form of a positive integer below 2^53. *)
Definition mant (v : positive) : positive := Z.to_pos (Zpos v * 2 ^ (52 - Z.log2 (Zpos v))).
Definition expo (v : positive) : Z := Z.log2 (Zpos v) - 52.

Lemma log2_bound v : Zpos v < 2 ^ 53 -> 0 <= Z.log2 (Zpos v) <= 52.
Proof.
  intros H. split; [apply Z.log2_nonneg|].
  assert (Z.log2 (Zpos v) < 53); [|lia]. apply Z.log2_lt_pow2; lia.
Qed.

Lemma iter_xO_pow (m d : positive) : Zpos (Pos.iter xO m d) = Zpos m * 2 ^ Zpos d.
Proof.
  change (Pos.iter xO m d) with (shift_pos d m). rewrite shift_pos_correct.
  rewrite Zpower_pos_nat, <- (positive_nat_Z d), <- Zpower_nat_Z. ring.
Qed.

Lemma binary_round_int (s : bool) (m : positive) (e : Z) (v : positive) :
  e <= 0 -> Zpos m = Zpos v * 2 ^ (- e) -> Zpos v < 2 ^ 53 ->
  binary_round prec emax s m e = S754_finite s (mant v) (expo v).
Proof.
  intros He Hm Hv. pose proof (log2_bound v Hv) as Hl.
  assert (Hlm : Z.log2 (Zpos m) = Z.log2 (Zpos v) - e).
  { rewrite Hm, Z.log2_mul_pow2; lia. }
  unfold binary_round. rewrite digits2_pos_log2, fexp_eq, Hlm.
  replace (Z.max (Z.log2 (Z.pos v) - e + 1 + e - 53) (-1074)) with (expo v)
    by (unfold expo; lia).
  assert (Hmant : Zpos (mant v) = Zpos v * 2 ^ (- expo v)).
  { unfold mant, expo. replace (- (Z.log2 (Z.pos v) - 52)) with (52 - Z.log2 (Z.pos v)) by lia.
    rewrite Z2Pos.id; [reflexivity|]. apply Z.mul_pos_pos; [lia|]. apply Z.pow_pos_nonneg; lia. }
  unfold shl_align. destruct (expo v - e) as [|d|d] eqn:Ed.
  - rewrite binary_round_aux_exact; rewrite ?Hlm; unfold expo in *; try lia.
    + f_equal; [|lia]. apply Pos2Z.inj. rewrite Hmant.
      replace (Z.log2 (Z.pos v) - e + 1 + e - 53 - e) with 0 by lia.
      rewrite Z.div_1_r. cbn [Z.to_pos]. rewrite Hm. f_equal. f_equal. lia.
    + replace (Z.log2 (Z.pos v) - e + 1 + e - 53 - e) with 0 by lia. apply Z.divide_1_l.
  - assert (Hsplit : Zpos m = Zpos (mant v) * 2 ^ Zpos d).
    { rewrite Hm, Hmant, <- Z.mul_assoc, <- Z.pow_add_r by (unfold expo; lia).
      f_equal. f_equal. lia. }
    rewrite binary_round_aux_exact; rewrite ?Hlm; unfold expo in *; try lia.
    + replace (Z.log2 (Z.pos v) - e + 1 + e - 53 - e) with (Zpos d) by lia.
      f_equal; [|lia]. apply Pos2Z.inj. rewrite Z2Pos.id.
      * rewrite Hsplit. rewrite Z.div_mul; [reflexivity|]. apply Z.pow_nonzero; lia.
      * rewrite Hsplit. rewrite Z.div_mul; [lia|]. apply Z.pow_nonzero; lia.
    + replace (Z.log2 (Z.pos v) - e + 1 + e - 53 - e) with (Zpos d) by lia.
      exists (Zpos (mant v)). exact Hsplit.
  - assert (Hm' : Zpos (Pos.iter xO m d) = Zpos (mant v)).
    { rewrite iter_xO_pow, Hm, Hmant, <- Z.mul_assoc, <- Z.pow_add_r by (unfold expo; lia).
      f_equal. f_equal. unfold expo in *. lia. }
    apply Pos2Z.inj in Hm'. rewrite Hm'.
    assert (Hlmant : Z.log2 (Zpos (mant v)) = 52).
    { rewrite Hmant, Z.log2_mul_pow2; unfold expo; lia. }
    rewrite binary_round_aux_exact; rewrite ?Hlmant; unfold expo in *; try lia.
    + replace (52 + 1 + (Z.log2 (Z.pos v) - 52) - 53 - (Z.log2 (Z.pos v) - 52)) with 0 by lia.
      rewrite Z.div_1_r, Pos2Z.id. f_equal. lia.
    + replace (52 + 1 + (Z.log2 (Z.pos v) - 52) - 53 - (Z.log2 (Z.pos v) - 52)) with 0 by lia.
      apply Z.divide_1_l.
Qed.

Definition canon (z : Z) : spec_float :=
  match z with
  | Z0 => S754_zero false
  | Zpos v => S754_finite false (mant v) (expo v)
  | Zneg v => S754_finite true (mant v) (expo v)
  end.

Lemma mant_spec v : Zpos v < 2 ^ 53 -> Zpos (mant v) = Zpos v * 2 ^ (- expo v).
Proof.
  intros Hv. pose proof (log2_bound v Hv).
  unfold mant, expo. replace (- (Z.log2 (Z.pos v) - 52)) with (52 - Z.log2 (Z.pos v)) by lia.
  rewrite Z2Pos.id; [reflexivity|]. apply Z.mul_pos_pos; [lia|]. apply Z.pow_pos_nonneg; lia.
Qed.

Lemma expo_bound v : Zpos v < 2 ^ 53 -> -52 <= expo v <= 0.
Proof. intros Hv. pose proof (log2_bound v Hv). unfold expo. lia. Qed.

Lemma binary_normalize_int (M e v : Z) :
  e <= 0 -> M = v * 2 ^ (- e) -> Z.abs v < 2 ^ 53 ->
  binary_normalize prec emax M e false = canon v.
Proof.
  intros He HM Hv. assert (Hp : 0 < 2 ^ (- e)) by (apply Z.pow_pos_nonneg; lia).
  destruct v as [|v|v].
  - subst M. reflexivity.
  - destruct M as [|m|m]; try nia. simpl. apply binary_round_int; [lia|exact HM|lia].
  - destruct M as [|m|m]; try nia. simpl. apply binary_round_int; [lia| |lia].
    change (Zneg m) with (- Zpos m) in HM. change (Zneg v) with (- Zpos v) in HM. lia.
Qed.

Lemma canon_valid z : Z.abs z < 2 ^ 53 -> valid_binary (canon z) = true.
Proof.
  intros Hz.
  assert (Hb : forall v, Zpos v < 2 ^ 53 -> bounded prec emax (mant v) (expo v) = true).
  { intros v Hv. pose proof (expo_bound v Hv). pose proof (mant_spec v Hv) as Hm.
    unfold bounded, canonical_mantissa. rewrite digits2_pos_log2, fexp_eq.
    rewrite Hm, Z.log2_mul_pow2 by lia.
    apply andb_true_iff. split; [apply Z.eqb_eq; unfold expo in *; lia|].
    apply Z.leb_le. change (emax - prec) with 971. lia. }
  destruct z as [|v|v]; [reflexivity|apply Hb; lia|apply Hb; lia].
Qed.

Lemma Prim2SF_canon z : Z.abs z < 2 ^ 53 -> Prim2SF (SF2Prim (canon z)) = canon z.
Proof. intros Hz. apply Prim2SF_SF2Prim. now apply canon_valid. Qed.

Lemma shl_align_fst (m : positive) (e ez : Z) :
  ez <= e -> Zpos (fst (shl_align m e ez)) = Zpos m * 2 ^ (e - ez).
Proof.
  intros H. unfold shl_align. destruct (ez - e) as [|d|d] eqn:E; try lia.
  - replace (e - ez) with 0 by lia. simpl. lia.
  - cbn [fst]. rewrite iter_xO_pow. f_equal. f_equal. lia.
Qed.

(** The signed integer a finite canonical float stands for. *)
Lemma canon_aligned (s : bool) (v : positive) (ez : Z) :
  Zpos v < 2 ^ 53 -> ez <= expo v ->
  cond_Zopp s (Zpos (fst (shl_align (mant v) (expo v) ez)))
  = cond_Zopp s (Zpos v) * 2 ^ (- ez).
Proof.
  intros Hv He. pose proof (expo_bound v Hv).
  rewrite shl_align_fst by exact He. rewrite mant_spec by exact Hv.
  rewrite <- Z.mul_assoc, <- Z.pow_add_r by lia.
  replace (- expo v + (expo v - ez)) with (- ez) by lia.
  unfold cond_Zopp. destruct s; [ring|reflexivity].
Qed.

Definition signed (s : bool) (v : positive) : Z := cond_Zopp s (Zpos v).

Lemma canon_signed s v : canon (signed s v) = S754_finite s (mant v) (expo v).
Proof. destruct s; reflexivity. Qed.

Lemma SFadd_canon a b :
  Z.abs a < 2 ^ 53 -> Z.abs b < 2 ^ 53 -> Z.abs (a + b) < 2 ^ 53 ->
  SFadd prec emax (canon a) (canon b) = canon (a + b).
Proof.
  intros Ha Hb Hab.
  assert (Hfin : forall sa va sb vb,
    Zpos va < 2 ^ 53 -> Zpos vb < 2 ^ 53 -> Z.abs (signed sa va + signed sb vb) < 2 ^ 53 ->
    SFadd prec emax (S754_finite sa (mant va) (expo va)) (S754_finite sb (mant vb) (expo vb))
    = canon (signed sa va + signed sb vb)).
  { intros sa va sb vb Hva Hvb Hs. cbn [SFadd].
    pose proof (expo_bound va Hva). pose proof (expo_bound vb Hvb).
    apply binary_normalize_int; [lia| |exact Hs].
    rewrite !canon_aligned by lia. unfold signed. ring. }
  destruct a as [|va|va], b as [|vb|vb]; try reflexivity.
  - apply (Hfin false va false vb); unfold signed, cond_Zopp; lia.
  - apply (Hfin false va true vb); unfold signed, cond_Zopp; lia.
  - apply (Hfin true va false vb); unfold signed, cond_Zopp; lia.
  - apply (Hfin true va true vb); unfold signed, cond_Zopp; lia.
Qed.

Lemma SFsub_canon a b :
  Z.abs a < 2 ^ 53 -> Z.abs b < 2 ^ 53 -> Z.abs (a - b) < 2 ^ 53 ->
  SFsub prec emax (canon a) (canon b) = canon (a - b).
Proof.
  intros Ha Hb Hab.
  assert (Hfin : forall sa va sb vb,
    Zpos va < 2 ^ 53 -> Zpos vb < 2 ^ 53 -> Z.abs (signed sa va - signed sb vb) < 2 ^ 53 ->
    SFsub prec emax (S754_finite sa (mant va) (expo va)) (S754_finite sb (mant vb) (expo vb))
    = canon (signed sa va - signed sb vb)).
  { intros sa va sb vb Hva Hvb Hs. cbn [SFsub].
    pose proof (expo_bound va Hva). pose proof (expo_bound vb Hvb).
    apply binary_normalize_int; [lia| |exact Hs].
    rewrite !canon_aligned by lia. unfold signed. ring. }
  destruct a as [|va|va], b as [|vb|vb]; try reflexivity.
  - apply (Hfin false va false vb); unfold signed, cond_Zopp; lia.
  - apply (Hfin false va true vb); unfold signed, cond_Zopp; lia.
  - apply (Hfin true va false vb); unfold signed, cond_Zopp; lia.
  - apply (Hfin true va true vb); unfold signed, cond_Zopp; lia.
Qed.

Lemma magnitude_compare va vb :
  Zpos va < 2 ^ 53 -> Zpos vb < 2 ^ 53 ->
  match expo va ?= expo vb with
  | Lt => Lt
  | Gt => Gt
  | Eq => Pos.compare_cont Eq (mant va) (mant vb)
  end = (Zpos va ?= Zpos vb).
Proof.
  intros Ha Hb. unfold expo at 1 2.
  destruct (Z.compare_spec (Z.log2 (Zpos va) - 52) (Z.log2 (Zpos vb) - 52)) as [E|E|E].
  - change (Pos.compare_cont Eq (mant va) (mant vb)) with (Zpos (mant va) ?= Zpos (mant vb)).
    rewrite !mant_spec by assumption. unfold expo. replace (Z.log2 (Zpos va)) with (Z.log2 (Zpos vb)) by lia.
    pose proof (log2_bound vb Hb).
    symmetry. apply Zmult_compare_compat_r. apply Z.lt_gt, Z.pow_pos_nonneg; lia.
  - symmetry. apply Z.compare_lt_iff. apply Z.log2_lt_cancel. lia.
  - symmetry. apply Z.compare_gt_iff. apply Z.log2_lt_cancel. lia.
Qed.

Lemma SFcompare_canon a b :
  Z.abs a < 2 ^ 53 -> Z.abs b < 2 ^ 53 ->
  SFcompare (canon a) (canon b) = Some (a ?= b).
Proof.
  intros Ha Hb. destruct a as [|va|va], b as [|vb|vb]; try reflexivity; cbn [canon SFcompare]; f_equal.
  - apply magnitude_compare; lia.
  - change (Z.neg va ?= Z.neg vb) with (CompOpp (Zpos va ?= Zpos vb)).
    rewrite <- magnitude_compare by lia.
    destruct (expo va ?= expo vb); reflexivity.
Qed.

Lemma shiftl_canon (v : positive) :
  Zpos v < 2 ^ 53 -> Z.shiftl (Zpos (mant v)) (expo v) = Zpos v.
Proof.
  intros Hv. pose proof (expo_bound v Hv).
  rewrite <- (Z.opp_involutive (expo v)). change (Z.shiftl ?a (- ?n)) with (Z.shiftr a n).
  rewrite Z.shiftr_div_pow2 by lia. rewrite mant_spec by exact Hv.
  apply Z.div_mul. apply Z.pow_nonzero; lia.
Qed.

Lemma of_int_canon z : Z.abs z < 2 ^ 53 -> Prim2SF (F64.of_int z) = canon z.
Proof.
  intros Hz. unfold F64.of_int.
  rewrite (binary_normalize_int z 0 z); [now apply Prim2SF_canon|lia| |exact Hz].
  simpl. lia.
Qed.

Lemma of_int_add a b :
  Z.abs a < 2 ^ 53 -> Z.abs b < 2 ^ 53 -> Z.abs (a + b) < 2 ^ 53 ->
  (F64.of_int a + F64.of_int b)%float = F64.of_int (a + b).
Proof.
  intros Ha Hb Hab. apply Prim2SF_inj.
  rewrite add_spec, !of_int_canon by assumption. now apply SFadd_canon.
Qed.

Lemma of_int_sub a b :
  Z.abs a < 2 ^ 53 -> Z.abs b < 2 ^ 53 -> Z.abs (a - b) < 2 ^ 53 ->
  (F64.of_int a - F64.of_int b)%float = F64.of_int (a - b).
Proof.
  intros Ha Hb Hab. apply Prim2SF_inj.
  rewrite sub_spec, !of_int_canon by assumption. now apply SFsub_canon.
Qed.

Lemma of_int_leb a b :
  Z.abs a < 2 ^ 53 -> Z.abs b < 2 ^ 53 ->
  (F64.of_int a <=? F64.of_int b)%float = (a <=? b).
Proof.
  intros Ha Hb. rewrite FloatAxioms.leb_spec, !of_int_canon by assumption.
  unfold SFleb. rewrite SFcompare_canon by assumption.
  unfold Z.leb. destruct (a ?= b); reflexivity.
Qed.

Lemma of_int_ltb a b :
  Z.abs a < 2 ^ 53 -> Z.abs b < 2 ^ 53 ->
  (F64.of_int a <? F64.of_int b)%float = (a <? b).
Proof.
  intros Ha Hb. rewrite FloatAxioms.ltb_spec, !of_int_canon by assumption.
  unfold SFltb. rewrite SFcompare_canon by assumption.
  unfold Z.ltb. destruct (a ?= b); reflexivity.
Qed.

Lemma to_int_of_int z : Z.abs z < 2 ^ 53 -> F64.to_int (F64.of_int z) = z.
Proof.
  intros Hz. unfold F64.to_int. rewrite of_int_canon by exact Hz.
  destruct z as [|v|v]; [reflexivity| |]; cbn [canon cond_Zopp];
    rewrite shiftl_canon by lia; reflexivity.
Qed.

Lemma of_int_0 : F64.of_int 0 = 0%float.
Proof. reflexivity. Qed.

Lemma of_int_1 : F64.of_int 1 = 1%float.
Proof. vm_compute. reflexivity. Qed.

(** ** [GenerateQuantiles]: the float counter *)

Section QuantileFacts.
Variable es : list SumEntry.

Lemma lookup_value_elem i e : es !! i = Some e -> value e ∈ map value es.
Proof.
  revert i. induction es as [|x xs IH]; intros [|i] H; simpl in H; try discriminate;
    simpl; apply elem_of_cons.
  - left. congruence.
  - right. eauto.
Qed.

Lemma advance_Done fuel d2 nextIdx :
  (nextIdx <= length es)%nat -> (length es - nextIdx < fuel)%nat ->
  exists r, advance es fuel d2 nextIdx = Done r /\ (nextIdx <= r <= length es)%nat.
Proof.
  revert nextIdx. induction fuel as [|fuel IH]; intros nextIdx Hn Hf; [lia|].
  simpl. destruct (nextIdx <? length es)%nat eqn:E.
  - apply Nat.ltb_lt in E. destruct (read_lt es nextIdx E) as (e & -> & _). simpl.
    destruct (_ <=? _)%float.
    + destruct (IH (S nextIdx)) as (r & -> & Hr); [lia|lia|]. exists r. split; [reflexivity|lia].
    + exists nextIdx. split; [reflexivity|lia].
  - exists nextIdx. split; [reflexivity|lia].
Qed.

(** The loop counts [rank] through the integers [k], [k+1], ...,
    [numQuantiles] exactly, writes one value of the summary at each of
    these indices and stops. *)
Lemma quantile_loop_Done numQuantiles fuel k curIdx output :
  numQuantiles + 1 < 2 ^ 53 -> 0 <= k <= numQuantiles + 1 ->
  numQuantiles + 2 - k <= Z.of_nat fuel ->
  (curIdx < length es)%nat -> Z.of_nat (length output) = numQuantiles + 1 ->
  Forall (fun v => v ∈ map value es) (take (Z.to_nat k) output) ->
  exists out,
    quantile_loop es fuel numQuantiles (F64.of_int k) curIdx output = Done out /\
    length out = length output /\ Forall (fun v => v ∈ map value es) out.
Proof.
  intros Hn. revert k curIdx output.
  induction fuel as [|fuel IH]; intros k curIdx output Hk Hf Hc Hlen Hvals; [lia|].
  cbn [quantile_loop]. rewrite of_int_leb by lia.
  destruct (k <=? numQuantiles) eqn:Ek.
  2:{ apply Z.leb_gt in Ek. exists output. split; [reflexivity|]. split; [reflexivity|].
      rewrite take_ge in Hvals by lia. exact Hvals. }
  apply Z.leb_le in Ek.
  destruct (read_lt es (length es - 1)) as (l & -> & _); [lia|]. cbn [mbind outcome_bind].
  match goal with |- context [advance es (length es) ?d2 (curIdx + 1)%nat] =>
    destruct (advance_Done (length es) d2 (curIdx + 1)%nat) as (nextIdx & -> & Hnext);
      [lia|lia|]; set (dd := d2)
  end.
  cbn [mbind outcome_bind].
  assert (Hread : exists first e,
    (if (nextIdx =? length es)%nat then Done true
     else c ← read es (nextIdx - 1)%nat; n ← read es nextIdx;
          Done (dd <? nextMinRank c + prevMaxRank n)%float) = Done first /\
    read es (if first : bool then (nextIdx - 1)%nat else nextIdx) = Done e /\
    value e ∈ map value es).
  { destruct (nextIdx =? length es)%nat eqn:En.
    - destruct (read_lt es (nextIdx - 1)) as (e & He & Hl); [lia|].
      exists true, e. split; [reflexivity|]. split; [exact He|].
      exact (lookup_value_elem _ _ Hl).
    - apply Nat.eqb_neq in En.
      destruct (read_lt es (nextIdx - 1)) as (c & -> & Hlc); [lia|].
      destruct (read_lt es nextIdx) as (n & Hrn & Hln); [lia|]. rewrite Hrn.
      cbn [mbind outcome_bind].
      destruct (dd <? nextMinRank c + prevMaxRank n)%float.
      + destruct (read_lt es (nextIdx - 1)) as (c' & Hc' & Hlc'); [lia|].
        exists true, c'. split; [reflexivity|]. split; [exact Hc'|].
        exact (lookup_value_elem _ _ Hlc').
      + exists false, n. split; [reflexivity|]. split; [exact Hrn|].
        exact (lookup_value_elem _ _ Hln). }
  destruct Hread as (first & e & Hq1 & Hq2 & He).
  rewrite Hq1. cbn [mbind outcome_bind]. rewrite Hq2. cbn [mbind outcome_bind].
  rewrite to_int_of_int by lia.
  destruct (k <? 0) eqn:Ek0; [apply Z.ltb_lt in Ek0; lia|].
  rewrite write_lt by lia. cbn [mbind outcome_bind].
  rewrite <- of_int_1, of_int_add by lia.
  destruct (IH (k + 1) (nextIdx - 1)%nat (<[Z.to_nat k := value e]> output))
    as (out & -> & Hlo & Hout).
  - lia.
  - lia.
  - lia.
  - rewrite length_insert. exact Hlen.
  - replace (Z.to_nat (k + 1)) with (S (Z.to_nat k)) by lia.
    rewrite (take_S_r _ _ (value e)) by (apply list_lookup_insert_eq; lia).
    rewrite take_insert_ge by lia. apply Forall_app. split; [exact Hvals|].
    constructor; [exact He|constructor].
  - exists out. rewrite length_insert in Hlo. auto.
Qed.
End QuantileFacts.

Lemma wrap64_small z : - 2 ^ 63 <= z < 2 ^ 63 -> wrap64 z = z.
Proof. intros H. unfold wrap64. rewrite Z.mod_small; lia. Qed.

(** X10: on a non-empty summary, when the [max(numQuantiles, 2) + 1]
    elements asked of [make] are within [maxSliceLen],
    [GenerateQuantiles] returns without a panic after
    [max(numQuantiles, 2) + 1] rounds of its loop, whatever the ranks
    and values are; the slice it returns has [max(numQuantiles, 2) + 1]
    elements and each of them is the value of an entry of the
    summary. *)
Theorem GenerateQuantiles_returns (sum : Summary) (numQuantiles : Z) (fuel : nat) :
  entries sum <> [] -> Z.max numQuantiles 2 + 1 <= maxSliceLen ->
  Z.max numQuantiles 2 + 2 <= Z.of_nat fuel ->
  exists out,
    GenerateQuantiles fuel sum numQuantiles = Done out /\
    Z.of_nat (length out) = Z.max numQuantiles 2 + 1 /\
    Forall (fun v => v ∈ map value (entries sum)) out.
Proof.
  intros Hne Hn Hf. unfold GenerateQuantiles. unfold maxSliceLen in *.
  destruct (entries sum) as [|e0 es] eqn:Hes; [congruence|].
  replace (if numQuantiles <? 2 then 2 else numQuantiles) with (Z.max numQuantiles 2)
    by (destruct (numQuantiles <? 2) eqn:E; lia).
  set (n := Z.max numQuantiles 2) in *. assert (2 <= n) by lia.
  rewrite wrap64_small by lia.
  destruct (n + 1 <? 0) eqn:E; [lia|].
  destruct (2 ^ 45 <? n + 1) eqn:E'; [lia|]. cbn [orb].
  change 0%float with (F64.of_int 0) at 2.
  destruct (quantile_loop_Done (e0 :: es) n fuel 0 0%nat
              (replicate (Z.to_nat (n + 1)) (F64.of_int 0)))
    as (out & Hout & Hl & Hv).
  - lia.
  - lia.
  - lia.
  - simpl. lia.
  - rewrite length_replicate. lia.
  - constructor.
  - exists out. split; [exact Hout|]. split; [|exact Hv].
    rewrite Hl, length_replicate. lia.
Qed.

Lemma GenerateQuantiles_returns_witness :
  exists out,
    GenerateQuantiles 6 five 4 = Done out /\
    Z.of_nat (length out) = Z.max 4 2 + 1 /\
    Forall (fun v => v ∈ map value (entries five)) out.
Proof.
  apply (GenerateQuantiles_returns five 4 6); [discriminate| |].
  - vm_compute. discriminate.
  - vm_compute. discriminate.
Defined.

(** X16: on a non-empty summary, a [numQuantiles] of [maxSliceLen] or
    more makes [GenerateQuantiles] panic in [make], before its loop:
    [numQuantiles + 1] is above the limit or, for the largest [int64],
    wraps around to a negative length. *)
Theorem GenerateQuantiles_too_long (sum : Summary) (numQuantiles : Z) (fuel : nat) :
  entries sum <> [] -> maxSliceLen <= numQuantiles < 2 ^ 63 ->
  GenerateQuantiles fuel sum numQuantiles = Panic.
Proof.
  intros Hne Hn. unfold GenerateQuantiles. unfold maxSliceLen in *.
  destruct (entries sum) as [|e0 es] eqn:Hes; [congruence|].
  destruct (numQuantiles <? 2) eqn:E2; [lia|].
  destruct (Z.eq_dec numQuantiles (2 ^ 63 - 1)) as [->|Hmax]; [reflexivity|].
  rewrite wrap64_small by lia.
  destruct (numQuantiles + 1 <? 0) eqn:E; [reflexivity|].
  destruct (2 ^ 45 <? numQuantiles + 1) eqn:E'; [reflexivity|lia].
Qed.

Lemma GenerateQuantiles_too_long_witness : GenerateQuantiles 0 five (2 ^ 45) = Panic.
Proof.
  apply (GenerateQuantiles_too_long five (2 ^ 45) 0); [discriminate|].
  unfold maxSliceLen. lia.
Defined.

(** ** Buffers with integer weights *)

(** A buffer whose weights are the integers [snd p]. *)
Definition int_buffer (vws : list (float * Z)) : list bufEntry :=
  map (fun p => Buf.mk (fst p) (F64.of_int (snd p))) vws.

Definition sum_weights (vws : list (float * Z)) : Z :=
  fold_right (fun p s => snd p + s) 0 vws.

(** The entries with the integer running sums as ranks, from the
    running sum [c] on. *)
Fixpoint int_entries (c : Z) (vws : list (float * Z)) : list SumEntry :=
  match vws with
  | [] => []
  | p :: rest =>
      {| value := fst p; weight := F64.of_int (snd p);
         minRank := F64.of_int c; maxRank := F64.of_int (c + snd p) |}
      :: int_entries (c + snd p) rest
  end.

Lemma sum_weights_nonneg vws : Forall (fun p => 0 <= snd p) vws -> 0 <= sum_weights vws.
Proof. induction 1; simpl; lia. Qed.

Lemma build_loop_int c vws :
  0 <= c -> Forall (fun p => 0 <= snd p) vws -> c + sum_weights vws < 2 ^ 53 ->
  build_loop (F64.of_int c) (int_buffer vws) = int_entries c vws.
Proof.
  intros Hc Hw. revert c Hc. induction Hw as [|p vws Hp Hw IH]; intros c Hc Hs; [reflexivity|].
  pose proof (sum_weights_nonneg vws Hw). simpl in Hs. simpl.
  rewrite of_int_add by lia. rewrite IH by lia. reflexivity.
Qed.

Lemma int_entries_lastMaxRank c p vws :
  lastMaxRank (int_entries c (p :: vws)) = F64.of_int (c + sum_weights (p :: vws)).
Proof.
  revert c p. induction vws as [|q vws IH]; intros c p.
  - unfold lastMaxRank. simpl. now rewrite Z.add_0_r.
  - change (int_entries c (p :: q :: vws))
      with ({| value := fst p; weight := F64.of_int (snd p);
               minRank := F64.of_int c; maxRank := F64.of_int (c + snd p) |}
            :: int_entries (c + snd p) (q :: vws)).
    rewrite lastMaxRank_cons by discriminate. rewrite IH. f_equal. simpl. lia.
Qed.

Lemma of_int_ltb_irrefl : (F64.of_int 0 <? F64.of_int 0)%float = false.
Proof. reflexivity. Qed.

Lemma maxGap_loop_int prev c vws :
  nextMinRank prev = F64.of_int c ->
  0 <= c -> Forall (fun p => 0 <= snd p) vws -> c + sum_weights vws < 2 ^ 53 ->
  maxGap_loop prev (int_entries c vws) 0 = 0%float.
Proof.
  intros Hprev Hc Hw. revert prev c Hprev Hc.
  induction Hw as [|p vws Hp Hw IH]; intros prev c Hprev Hc Hs; [reflexivity|].
  pose proof (sum_weights_nonneg vws Hw). simpl in Hs.
  cbn [int_entries maxGap_loop]. unfold prevMaxRank at 1. cbn [maxRank minRank weight].
  rewrite Hprev.
  rewrite (of_int_sub (c + snd p) c) by lia.
  replace (c + snd p - c) with (snd p) by lia.
  rewrite (of_int_sub (c + snd p) (snd p)) by lia.
  replace (c + snd p - snd p) with c by lia.
  rewrite !of_int_sub by lia. rewrite !Z.sub_diag.
  change (F64.of_int 0) with 0%float. change (0 <? 0)%float with false. cbv iota.
  apply (IH _ (c + snd p)); [|lia|lia].
  unfold nextMinRank. cbn [minRank weight]. apply of_int_add; lia.
Qed.

Lemma zero_div_of_int t : 0 < t < 2 ^ 53 -> (0 / F64.of_int t)%float = 0%float.
Proof.
  intros Ht. apply Prim2SF_inj. rewrite div_spec, of_int_canon by lia.
  destruct t as [|v|v]; try lia. reflexivity.
Qed.

(** X11: for a buffer whose weights are non-negative integers with a
    sum below 2^53, [buildFromBufferEntries] computes the ranks without
    rounding: they are the integer running sums, the total weight is
    the sum of the weights, and, when that sum is positive, the
    approximation error of the built summary is exactly 0. *)
Theorem buildFromBufferEntries_integer_weights (vws : list (float * Z)) :
  Forall (fun p => 0 <= snd p) vws -> sum_weights vws < 2 ^ 53 ->
  entries (buildFromBufferEntries (int_buffer vws)) = int_entries 0 vws /\
  TotalWeight (buildFromBufferEntries (int_buffer vws)) = F64.of_int (sum_weights vws) /\
  (0 < sum_weights vws ->
   ApproximationError (buildFromBufferEntries (int_buffer vws)) = 0%float).
Proof.
  intros Hw Hs.
  assert (He : entries (buildFromBufferEntries (int_buffer vws)) = int_entries 0 vws).
  { unfold buildFromBufferEntries. cbn [entries]. change 0%float with (F64.of_int 0).
    apply build_loop_int; [lia|exact Hw|lia]. }
  assert (Ht : TotalWeight (buildFromBufferEntries (int_buffer vws))
               = F64.of_int (sum_weights vws)).
  { unfold TotalWeight. rewrite He. destruct vws as [|p vws]; [reflexivity|].
    apply (int_entries_lastMaxRank 0 p vws). }
  split; [exact He|]. split; [exact Ht|].
  intros Hpos. unfold ApproximationError. rewrite Ht, He.
  destruct vws as [|p vws]; [simpl in Hpos; lia|].
  cbn [int_entries]. inversion Hw as [|? ? Hp Hw']; subst.
  pose proof (sum_weights_nonneg vws Hw'). simpl in Hs.
  rewrite maxGap_loop_int with (c := 0 + snd p); [| |lia|exact Hw'|lia].
  - apply zero_div_of_int. simpl in Hpos |- *. lia.
  - unfold nextMinRank. cbn [minRank weight]. apply of_int_add; lia.
Qed.

Lemma buildFromBufferEntries_integer_weights_witness :
  entries (buildFromBufferEntries (int_buffer [(1%float, 2); (2%float, 0); (3%float, 5)]))
  = int_entries 0 [(1%float, 2); (2%float, 0); (3%float, 5)] /\
  TotalWeight (buildFromBufferEntries (int_buffer [(1%float, 2); (2%float, 0); (3%float, 5)]))
  = F64.of_int (sum_weights [(1%float, 2); (2%float, 0); (3%float, 5)]) /\
  (0 < sum_weights [(1%float, 2); (2%float, 0); (3%float, 5)] ->
   ApproximationError
     (buildFromBufferEntries (int_buffer [(1%float, 2); (2%float, 0); (3%float, 5)]))
   = 0%float).
Proof.
  apply (buildFromBufferEntries_integer_weights [(1%float, 2); (2%float, 0); (3%float, 5)]).
  - repeat constructor; simpl; lia.
  - reflexivity.
Defined.

(** ** [Merge] of summaries built from integer-weight buffers *)

(** Merging two buffers by value: the samples in the order in which
    [Merge] takes them, samples of equal value joined into one. *)
Fixpoint merge_buffers (l1 : list (float * Z)) : list (float * Z) -> list (float * Z) :=
  fix from_other (l2 : list (float * Z)) : list (float * Z) :=
    match l1, l2 with
    | [], _ => l2
    | _, [] => l1
    | p1 :: r1, p2 :: r2 =>
        if (fst p1 <? fst p2)%float then p1 :: merge_buffers r1 l2
        else if (fst p2 <? fst p1)%float then p2 :: from_other r2
        else (fst p1, snd p1 + snd p2) :: merge_buffers r1 r2
    end.

Lemma merge_buffers_nil_l l2 : merge_buffers [] l2 = l2.
Proof. destruct l2; reflexivity. Qed.

Lemma merge_buffers_nil_r l1 : merge_buffers l1 [] = l1.
Proof. destruct l1; reflexivity. Qed.

Lemma merge_buffers_cons p1 r1 p2 r2 :
  merge_buffers (p1 :: r1) (p2 :: r2) =
  if (fst p1 <? fst p2)%float then p1 :: merge_buffers r1 (p2 :: r2)
  else if (fst p2 <? fst p1)%float then p2 :: merge_buffers (p1 :: r1) r2
  else (fst p1, snd p1 + snd p2) :: merge_buffers r1 r2.
Proof. reflexivity. Qed.

Lemma merge_buffers_weights l1 l2 :
  Forall (fun p => 0 <= snd p) l1 -> Forall (fun p => 0 <= snd p) l2 ->
  Forall (fun p => 0 <= snd p) (merge_buffers l1 l2) /\
  sum_weights (merge_buffers l1 l2) = sum_weights l1 + sum_weights l2.
Proof.
  revert l2. induction l1 as [|p1 r1 IH1]; intros l2 H1 H2.
  { rewrite merge_buffers_nil_l. auto. }
  induction l2 as [|p2 r2 IH2].
  { rewrite merge_buffers_nil_r. simpl. split; [exact H1|lia]. }
  rewrite merge_buffers_cons.
  pose proof (Forall_inv H1) as Hp1. pose proof (Forall_inv_tail H1) as Hr1.
  pose proof (Forall_inv H2) as Hp2. pose proof (Forall_inv_tail H2) as Hr2.
  cbv beta in Hp1, Hp2.
  destruct (fst p1 <? fst p2)%float; [|destruct (fst p2 <? fst p1)%float].
  - destruct (IH1 (p2 :: r2) Hr1 H2) as [Hf Hs]. split; [constructor; assumption|].
    simpl in *. lia.
  - destruct (IH2 Hr2) as [Hf Hs]. split; [constructor; assumption|].
    simpl in *. lia.
  - destruct (IH1 r2 Hr1 Hr2) as [Hf Hs]. split; [constructor; [simpl; lia|assumption]|].
    simpl in *. lia.
Qed.

Lemma residual1_int otherEntries TB c1 l1 :
  lastMaxRank otherEntries = F64.of_int TB ->
  0 <= c1 -> 0 <= TB -> Forall (fun p => 0 <= snd p) l1 ->
  c1 + sum_weights l1 + TB < 2 ^ 53 ->
  residual1 otherEntries (F64.of_int TB) (int_entries c1 l1) = int_entries (c1 + TB) l1.
Proof.
  intros Hlast Hc HT Hw. revert c1 Hc.
  induction Hw as [|p l1 Hp Hw IH]; intros c1 Hc Hs; [reflexivity|].
  pose proof (sum_weights_nonneg l1 Hw). simpl in Hs.
  unfold residual1 in *. cbn [int_entries map value weight minRank maxRank].
  rewrite IH by lia. rewrite Hlast, !of_int_add by lia.
  f_equal; [|f_equal; lia]. f_equal. f_equal. lia.
Qed.

Lemma residual2_int baseEntries TA c2 l2 :
  lastMaxRank baseEntries = F64.of_int TA ->
  0 <= c2 -> 0 <= TA -> Forall (fun p => 0 <= snd p) l2 ->
  c2 + sum_weights l2 + TA < 2 ^ 53 ->
  residual2 baseEntries (F64.of_int TA) (int_entries c2 l2) = int_entries (TA + c2) l2.
Proof.
  intros Hlast Hc HT Hw. revert c2 Hc.
  induction Hw as [|p l2 Hp Hw IH]; intros c2 Hc Hs; [reflexivity|].
  pose proof (sum_weights_nonneg l2 Hw). simpl in Hs.
  unfold residual2 in *. cbn [int_entries map value weight minRank maxRank].
  rewrite IH by lia. rewrite Hlast, !of_int_add by lia.
  f_equal; [|f_equal; lia]. f_equal; f_equal; lia.
Qed.

Section MergeInt.
Variables (baseEntries otherEntries : list SumEntry) (TA TB : Z).
Hypothesis base_total : lastMaxRank baseEntries = F64.of_int TA.
Hypothesis other_total : lastMaxRank otherEntries = F64.of_int TB.
Hypothesis total_bound : TA + TB < 2 ^ 53.

Ltac int_arith := repeat first [rewrite of_int_sub by lia | rewrite of_int_add by lia].

(** The main loop on exact integer ranks: [c1] and [c2] are the weights
    consumed so far from each operand. *)
Lemma merge_loop_int l1 l2 c1 c2 :
  0 <= c1 -> 0 <= c2 ->
  Forall (fun p => 0 <= snd p) l1 -> Forall (fun p => 0 <= snd p) l2 ->
  c1 + sum_weights l1 = TA -> c2 + sum_weights l2 = TB ->
  merge_loop baseEntries otherEntries (int_entries c1 l1) (int_entries c2 l2)
             (F64.of_int c1) (F64.of_int c2)
  = int_entries (c1 + c2) (merge_buffers l1 l2).
Proof using base_total other_total total_bound.
  revert l2 c1 c2. induction l1 as [|p1 r1 IH1]; intros l2 c1 c2 Hc1 Hc2 H1 H2 S1 S2.
  { pose proof (sum_weights_nonneg l2 H2). simpl in S1.
    cbn [int_entries]. rewrite merge_loop_nil_l, merge_buffers_nil_l.
    replace c1 with TA by lia. apply residual2_int; try assumption; lia. }
  revert c1 c2 Hc1 Hc2 S1 S2. induction H2 as [|p2 r2 Hp2 Hr2 IH2]; intros c1 c2 Hc1 Hc2 S1 S2.
  { pose proof (sum_weights_nonneg _ H1). simpl in S2.
    change (int_entries c2 []) with (@nil SumEntry).
    rewrite merge_loop_nil_r, merge_buffers_nil_r.
    replace c2 with TB by lia. apply residual1_int; try assumption; lia. }
  pose proof (Forall_inv H1) as Hp1. pose proof (Forall_inv_tail H1) as Hr1.
  cbv beta in Hp1.
  pose proof (sum_weights_nonneg _ Hr1). pose proof (sum_weights_nonneg _ Hr2).
  simpl in S1, S2.
  cbn [int_entries]. rewrite merge_loop_cons, merge_buffers_cons.
  unfold prevMaxRank, nextMinRank. cbn [value weight minRank maxRank].
  destruct (fst p1 <? fst p2)%float; [|destruct (fst p2 <? fst p1)%float]; cbn [int_entries fst snd].
  - int_arith. f_equal; [f_equal; f_equal; lia|].
    replace (c1 + c2 + snd p1) with (c1 + snd p1 + c2) by lia.
    apply (IH1 (p2 :: r2) (c1 + snd p1) c2); try assumption; try lia.
    constructor; assumption.
  - int_arith. f_equal; [f_equal; f_equal; lia|].
    replace (c1 + c2 + snd p2) with (c1 + (c2 + snd p2)) by lia.
    apply (IH2 c1 (c2 + snd p2)); try assumption; try lia.
  - int_arith. f_equal; [f_equal; f_equal; lia|].
    replace (c1 + c2 + (snd p1 + snd p2)) with (c1 + snd p1 + (c2 + snd p2)) by lia.
    apply (IH1 r2 (c1 + snd p1) (c2 + snd p2)); try assumption; lia.
Qed.
End MergeInt.

Lemma build_int_entries vws :
  Forall (fun p => 0 <= snd p) vws -> sum_weights vws < 2 ^ 53 ->
  buildFromBufferEntries (int_buffer vws) = {| entries := int_entries 0 vws |}.
Proof.
  intros Hw Hs. unfold buildFromBufferEntries. f_equal.
  change 0%float with (F64.of_int 0). apply build_loop_int; [lia|exact Hw|lia].
Qed.

Lemma int_summary_total vws :
  TotalWeight {| entries := int_entries 0 vws |} = F64.of_int (sum_weights vws).
Proof.
  unfold TotalWeight. cbn [entries]. destruct vws as [|p vws]; [reflexivity|].
  apply (int_entries_lastMaxRank 0 p vws).
Qed.

Lemma int_summary_error vws :
  Forall (fun p => 0 <= snd p) vws -> 0 < sum_weights vws < 2 ^ 53 ->
  ApproximationError {| entries := int_entries 0 vws |} = 0%float.
Proof.
  intros Hw Hs. unfold ApproximationError. rewrite int_summary_total. cbn [entries].
  destruct vws as [|p vws]; [simpl in Hs; lia|].
  cbn [int_entries]. pose proof (Forall_inv Hw) as Hp. pose proof (Forall_inv_tail Hw) as Hw'.
  cbv beta in Hp. pose proof (sum_weights_nonneg vws Hw'). simpl in Hs.
  rewrite maxGap_loop_int with (c := 0 + snd p); [| |lia|exact Hw'|lia].
  - apply zero_div_of_int. simpl. lia.
  - unfold nextMinRank. cbn [minRank weight]. apply of_int_add; lia.
Qed.

(** X12: for two buffers with non-negative integer weights whose sums
    together stay below 2^53, merging the summaries built from them
    gives the summary built from the merged buffer: [Merge] computes
    every rank without rounding. The total weight of the result is the
    sum of all weights and, when that is positive, its approximation
    error is exactly 0. *)
Theorem Merge_of_built (va vb : list (float * Z)) :
  Forall (fun p => 0 <= snd p) va -> Forall (fun p => 0 <= snd p) vb ->
  sum_weights va + sum_weights vb < 2 ^ 53 ->
  Merge (buildFromBufferEntries (int_buffer va)) (buildFromBufferEntries (int_buffer vb))
  = buildFromBufferEntries (int_buffer (merge_buffers va vb)) /\
  TotalWeight (Merge (buildFromBufferEntries (int_buffer va))
                     (buildFromBufferEntries (int_buffer vb)))
  = F64.of_int (sum_weights va + sum_weights vb) /\
  (0 < sum_weights va + sum_weights vb ->
   ApproximationError (Merge (buildFromBufferEntries (int_buffer va))
                             (buildFromBufferEntries (int_buffer vb))) = 0%float).
Proof.
  intros Ha Hb Hs.
  pose proof (sum_weights_nonneg va Ha). pose proof (sum_weights_nonneg vb Hb).
  destruct (merge_buffers_weights va vb Ha Hb) as [Hc Hsum].
  assert (Hm : Merge (buildFromBufferEntries (int_buffer va))
                     (buildFromBufferEntries (int_buffer vb))
               = {| entries := int_entries 0 (merge_buffers va vb) |}).
  { rewrite (build_int_entries va), (build_int_entries vb) by (assumption || lia).
    unfold Merge. cbn [entries].
    destruct vb as [|pb rb]; [now rewrite merge_buffers_nil_r|].
    destruct va as [|pa ra]; [now rewrite merge_buffers_nil_l|].
    cbn [int_entries]. cbv zeta. f_equal.
    apply (merge_loop_int (int_entries 0 (pa :: ra)) (int_entries 0 (pb :: rb))
             (sum_weights (pa :: ra)) (sum_weights (pb :: rb))
             (int_entries_lastMaxRank 0 pa ra) (int_entries_lastMaxRank 0 pb rb) Hs
             (pa :: ra) (pb :: rb) 0 0); try assumption; lia. }
  rewrite Hm. split; [|split].
  - symmetry. apply build_int_entries; [exact Hc|lia].
  - rewrite int_summary_total. f_equal. exact Hsum.
  - intros Hpos. apply int_summary_error; [exact Hc|lia].
Qed.

Lemma Merge_of_built_witness :
  Merge (buildFromBufferEntries (int_buffer [(1%float, 2); (3%float, 1)]))
        (buildFromBufferEntries (int_buffer [(2%float, 0); (3%float, 4)]))
  = buildFromBufferEntries
      (int_buffer (merge_buffers [(1%float, 2); (3%float, 1)] [(2%float, 0); (3%float, 4)])) /\
  TotalWeight (Merge (buildFromBufferEntries (int_buffer [(1%float, 2); (3%float, 1)]))
                     (buildFromBufferEntries (int_buffer [(2%float, 0); (3%float, 4)])))
  = F64.of_int (sum_weights [(1%float, 2); (3%float, 1)]
                + sum_weights [(2%float, 0); (3%float, 4)]) /\
  (0 < sum_weights [(1%float, 2); (3%float, 1)] + sum_weights [(2%float, 0); (3%float, 4)] ->
   ApproximationError
     (Merge (buildFromBufferEntries (int_buffer [(1%float, 2); (3%float, 1)]))
            (buildFromBufferEntries (int_buffer [(2%float, 0); (3%float, 4)]))) = 0%float).
Proof.
  apply (Merge_of_built [(1%float, 2); (3%float, 1)] [(2%float, 0); (3%float, 4)]).
  - repeat constructor; simpl; lia.
  - repeat constructor; simpl; lia.
  - reflexivity.
Defined.

(** ** Summaries with integer ranks

    The entries whose weight and ranks are integers, and [Merge] read
    on them: the same loop with integer arithmetic. *)

Record ZEntry : Type := mkZEntry {
  zvalue : float;
  zweight : Z;
  zminRank : Z;
  zmaxRank : Z
}.

Definition embed (z : ZEntry) : SumEntry :=
  {| value := zvalue z; weight := F64.of_int (zweight z);
     minRank := F64.of_int (zminRank z); maxRank := F64.of_int (zmaxRank z) |}.

Definition zprevMaxRank (z : ZEntry) : Z := zmaxRank z - zweight z.
Definition znextMinRank (z : ZEntry) : Z := zminRank z + zweight z.

Section ZMerge.
(** The total weights of the two operands: the [maxRank] of their last
    entries. *)
Variables TA TB : Z.

Definition zresidual1 (n2 : Z) (l1 : list ZEntry) : list ZEntry :=
  map (fun it1 => mkZEntry (zvalue it1) (zweight it1) (zminRank it1 + n2) (zmaxRank it1 + TB)) l1.

Definition zresidual2 (n1 : Z) (l2 : list ZEntry) : list ZEntry :=
  map (fun it2 => mkZEntry (zvalue it2) (zweight it2) (zminRank it2 + n1) (zmaxRank it2 + TA)) l2.

Fixpoint zmerge_loop (l1 : list ZEntry) : list ZEntry -> Z -> Z -> list ZEntry :=
  fix from_other (l2 : list ZEntry) (n1 n2 : Z) {struct l2} : list ZEntry :=
    match l1, l2 with
    | [], _ => zresidual2 n1 l2
    | _, [] => zresidual1 n2 l1
    | it1 :: l1', it2 :: l2' =>
        if (zvalue it1 <? zvalue it2)%float then
          mkZEntry (zvalue it1) (zweight it1) (zminRank it1 + n2)
                   (zmaxRank it1 + zprevMaxRank it2)
          :: zmerge_loop l1' l2 (znextMinRank it1) n2
        else if (zvalue it2 <? zvalue it1)%float then
          mkZEntry (zvalue it2) (zweight it2) (zminRank it2 + n1)
                   (zmaxRank it2 + zprevMaxRank it1)
          :: from_other l2' n1 (znextMinRank it2)
        else
          mkZEntry (zvalue it1) (zweight it1 + zweight it2)
                   (zminRank it1 + zminRank it2) (zmaxRank it1 + zmaxRank it2)
          :: zmerge_loop l1' l2' (znextMinRank it1) (znextMinRank it2)
    end.

Lemma zmerge_loop_nil_l l2 n1 n2 : zmerge_loop [] l2 n1 n2 = zresidual2 n1 l2.
Proof. destruct l2; reflexivity. Qed.

Lemma zmerge_loop_nil_r l1 n1 n2 : zmerge_loop l1 [] n1 n2 = zresidual1 n2 l1.
Proof. destruct l1; reflexivity. Qed.

Lemma zmerge_loop_cons it1 l1 it2 l2 n1 n2 :
  zmerge_loop (it1 :: l1) (it2 :: l2) n1 n2 =
  if (zvalue it1 <? zvalue it2)%float then
    mkZEntry (zvalue it1) (zweight it1) (zminRank it1 + n2)
             (zmaxRank it1 + zprevMaxRank it2)
    :: zmerge_loop l1 (it2 :: l2) (znextMinRank it1) n2
  else if (zvalue it2 <? zvalue it1)%float then
    mkZEntry (zvalue it2) (zweight it2) (zminRank it2 + n1)
             (zmaxRank it2 + zprevMaxRank it1)
    :: zmerge_loop (it1 :: l1) l2 n1 (znextMinRank it2)
  else
    mkZEntry (zvalue it1) (zweight it1 + zweight it2)
             (zminRank it1 + zminRank it2) (zmaxRank it1 + zmaxRank it2)
    :: zmerge_loop l1 l2 (znextMinRank it1) (znextMinRank it2).
Proof. reflexivity. Qed.

(** An entry with non-negative weight and ranks between 0 and [T],
    [minRank + weight] not above [maxRank]. *)
Definition zbounded (T : Z) (z : ZEntry) : Prop :=
  0 <= zweight z /\ 0 <= zminRank z /\ zminRank z + zweight z <= zmaxRank z /\ zmaxRank z <= T.

Variables baseEntries otherEntries : list SumEntry.
Hypothesis base_total : lastMaxRank baseEntries = F64.of_int TA.
Hypothesis other_total : lastMaxRank otherEntries = F64.of_int TB.
Hypothesis total_bound : TA + TB < 2 ^ 53.

Ltac z_arith := repeat first [rewrite of_int_sub by lia | rewrite of_int_add by lia].

Lemma residual1_embed n2 l1 :
  0 <= n2 <= TB -> Forall (zbounded TA) l1 ->
  residual1 otherEntries (F64.of_int n2) (map embed l1) = map embed (zresidual1 n2 l1).
Proof using other_total total_bound.
  intros Hn Hl. induction Hl as [|z l1 (Hw & Hlo & Hi & Hhi) Hl IH]; [reflexivity|].
  unfold residual1, zresidual1 in *. cbn [map]. rewrite IH. f_equal.
  unfold embed. cbn [value weight minRank maxRank zvalue zweight zminRank zmaxRank].
  rewrite other_total. z_arith. reflexivity.
Qed.

Lemma residual2_embed n1 l2 :
  0 <= n1 <= TA -> Forall (zbounded TB) l2 ->
  residual2 baseEntries (F64.of_int n1) (map embed l2) = map embed (zresidual2 n1 l2).
Proof using base_total total_bound.
  intros Hn Hl. induction Hl as [|z l2 (Hw & Hlo & Hi & Hhi) Hl IH]; [reflexivity|].
  unfold residual2, zresidual2 in *. cbn [map]. rewrite IH. f_equal.
  unfold embed. cbn [value weight minRank maxRank zvalue zweight zminRank zmaxRank].
  rewrite base_total. z_arith. reflexivity.
Qed.

(** On integer entries within the bounds the loop of [Merge] computes
    what the integer loop computes. *)
Lemma merge_loop_embed l1 l2 n1 n2 :
  Forall (zbounded TA) l1 -> Forall (zbounded TB) l2 ->
  0 <= n1 <= TA -> 0 <= n2 <= TB ->
  merge_loop baseEntries otherEntries (map embed l1) (map embed l2)
             (F64.of_int n1) (F64.of_int n2)
  = map embed (zmerge_loop l1 l2 n1 n2).
Proof using base_total other_total total_bound.
  intros H1. revert l2 n1 n2. induction H1 as [|it1 l1 Hb1 H1 IH1]; intros l2 n1 n2 H2 Hn1 Hn2.
  { cbn [map]. rewrite merge_loop_nil_l, zmerge_loop_nil_l. now apply residual2_embed. }
  revert n1 n2 Hn1 Hn2. induction H2 as [|it2 l2 Hb2 H2 IH2]; intros n1 n2 Hn1 Hn2.
  { change (map embed []) with (@nil SumEntry).
    rewrite merge_loop_nil_r, zmerge_loop_nil_r.
    apply residual1_embed; [exact Hn2|]. constructor; assumption. }
  destruct Hb1 as (Hw1 & Hlo1 & Hi1 & Hhi1). destruct Hb2 as (Hw2 & Hlo2 & Hi2 & Hhi2).
  cbn [map]. rewrite merge_loop_cons, zmerge_loop_cons.
  unfold prevMaxRank, nextMinRank.
  cbn [embed value weight minRank maxRank].
  destruct (zvalue it1 <? zvalue it2)%float; [|destruct (zvalue it2 <? zvalue it1)%float];
    cbn [map]; unfold zprevMaxRank, znextMinRank.
  - apply (f_equal2 (@cons SumEntry)).
    + unfold embed. cbn [value weight minRank maxRank zvalue zweight zminRank zmaxRank].
      z_arith. reflexivity.
    + cbn [embed value weight minRank maxRank]. z_arith. apply (IH1 (it2 :: l2) (zminRank it1 + zweight it1) n2).
      * constructor; [repeat split; assumption|assumption].
      * lia.
      * lia.
  - apply (f_equal2 (@cons SumEntry)).
    + unfold embed. cbn [value weight minRank maxRank zvalue zweight zminRank zmaxRank].
      z_arith. reflexivity.
    + cbn [embed value weight minRank maxRank]. z_arith. apply (IH2 n1 (zminRank it2 + zweight it2)); lia.
  - apply (f_equal2 (@cons SumEntry)).
    + unfold embed. cbn [value weight minRank maxRank zvalue zweight zminRank zmaxRank].
      z_arith. reflexivity.
    + cbn [embed value weight minRank maxRank]. z_arith. apply (IH1 l2 (zminRank it1 + zweight it1) (zminRank it2 + zweight it2));
        [assumption|lia|lia].
Qed.
End ZMerge.

(** ** Rank invariants on integer entries

    [zchain T n h l]: every entry of [l] has a non-negative weight, its
    [minRank] is at least the [nextMinRank] of the entry before it
    ([n] for the first), its [prevMaxRank] at least the [maxRank] of
    the entry before it ([h] for the first), [minRank + weight] is at
    most [maxRank], and [maxRank] is at most [T]. *)
Fixpoint zchain (T n h : Z) (l : list ZEntry) : Prop :=
  match l with
  | [] => True
  | z :: r =>
      0 <= zweight z /\ n <= zminRank z /\ h <= zprevMaxRank z /\
      znextMinRank z <= zmaxRank z /\ zmaxRank z <= T /\
      zchain T (znextMinRank z) (zmaxRank z) r
  end.

(** The [maxRank] of the last entry, [h] for no entry. *)
Fixpoint zlast (h : Z) (l : list ZEntry) : Z :=
  match l with
  | [] => h
  | z :: r => zlast (zmaxRank z) r
  end.

(** The [prevMaxRank] of the first entry, [T] for no entry. *)
Definition hpm (T : Z) (l : list ZEntry) : Z :=
  match l with
  | [] => T
  | z :: _ => zprevMaxRank z
  end.

Lemma zchain_weaken T T' n n' h h' l :
  zchain T n h l -> n' <= n -> h' <= h -> T <= T' -> zchain T' n' h' l.
Proof.
  revert n n' h h'. induction l as [|z r IH]; intros n n' h h' Hc Hn Hh HT; [exact I|].
  destruct Hc as (Hw & Hlo & Hpm & Hi & Hhi & Hr).
  repeat split; try lia. apply (IH _ _ _ _ Hr); lia.
Qed.

Lemma zchain_bounded T n h l : zchain T n h l -> 0 <= n -> Forall (zbounded T) l.
Proof.
  revert n h. induction l as [|z r IH]; intros n h Hc Hn; [constructor|].
  destruct Hc as (Hw & Hlo & Hpm & Hi & Hhi & Hr). unfold znextMinRank in *.
  constructor; [unfold zbounded; lia|]. apply (IH _ _ Hr). lia.
Qed.

Lemma zchain_hpm T T' n h l : zchain T n h l -> zlast h l = T' -> h <= hpm T' l.
Proof.
  destruct l as [|z r]; simpl; [lia|]. intros (Hw & Hlo & Hpm & _) _. exact Hpm.
Qed.

Section ZMergeValid.
Variables TA TB : Z.

Lemma zresidual1_chain X l1 n h n2 N H :
  zchain TA n h l1 -> n2 <= TB -> N <= n + n2 -> H <= hpm X l1 + TB ->
  zchain (TA + TB) N H (zresidual1 TB n2 l1).
Proof.
  revert n h N H. induction l1 as [|z r IH]; intros n h N H Hc Hn2 HN HH; [exact I|].
  destruct Hc as (Hw & Hlo & Hpm & Hi & Hhi & Hr).
  unfold zresidual1 in *. cbn [map zchain]. unfold hpm, zprevMaxRank, znextMinRank in *.
  cbn [zvalue zweight zminRank zmaxRank].
  repeat split; try lia.
  destruct r as [|z' r']; [simpl; exact I|].
  apply (IH _ _ _ _ Hr); [lia|lia|].
  destruct Hr as (_ & _ & Hpm' & _). unfold zprevMaxRank in *. lia.
Qed.

Lemma zresidual2_chain X l2 n h n1 N H :
  zchain TB n h l2 -> n1 <= TA -> N <= n1 + n -> H <= TA + hpm X l2 ->
  zchain (TA + TB) N H (zresidual2 TA n1 l2).
Proof.
  revert n h N H. induction l2 as [|z r IH]; intros n h N H Hc Hn1 HN HH; [exact I|].
  destruct Hc as (Hw & Hlo & Hpm & Hi & Hhi & Hr).
  unfold zresidual2 in *. cbn [map zchain]. unfold hpm, zprevMaxRank, znextMinRank in *.
  cbn [zvalue zweight zminRank zmaxRank].
  repeat split; try lia.
  destruct r as [|z' r']; [simpl; exact I|].
  apply (IH _ _ _ _ Hr); [lia|lia|].
  destruct Hr as (_ & _ & Hpm' & _). unfold zprevMaxRank in *. lia.
Qed.
End ZMergeValid.

Section ZMergeChain.
Variables TA TB : Z.

Lemma zlast_residual1 n2 l1 h :
  zlast (h + TB) (zresidual1 TB n2 l1) = zlast h l1 + TB.
Proof. revert h. induction l1 as [|z r IH]; intros h; [reflexivity|]. simpl. apply IH. Qed.

Lemma zlast_residual2 n1 l2 h :
  zlast (TA + h) (zresidual2 TA n1 l2) = TA + zlast h l2.
Proof.
  revert h. induction l2 as [|z r IH]; intros h; [reflexivity|]. simpl.
  rewrite (Z.add_comm (zmaxRank z) TA). apply IH.
Qed.

(** The integer loop keeps the rank invariants. *)
Lemma zmerge_loop_chain l1 l2 n1 h1 n2 h2 N H :
  zchain TA n1 h1 l1 -> zchain TB n2 h2 l2 ->
  zlast h1 l1 = TA -> zlast h2 l2 = TB -> n1 <= TA -> n2 <= TB ->
  N <= n1 + n2 -> H <= hpm TA l1 + hpm TB l2 ->
  zchain (TA + TB) N H (zmerge_loop TA TB l1 l2 n1 n2).
Proof.
  revert l2 n1 h1 n2 h2 N H.
  induction l1 as [|it1 l1 IH1]; intros l2 n1 h1 n2 h2 N H C1 C2 L1 L2 Hn1 Hn2 HN HH.
  { rewrite zmerge_loop_nil_l.
    apply (zresidual2_chain TA TB TB l2 n2 h2); try assumption. }
  revert n1 h1 n2 h2 N H C1 C2 L1 L2 Hn1 Hn2 HN HH.
  induction l2 as [|it2 l2 IH2]; intros n1 h1 n2 h2 N H C1 C2 L1 L2 Hn1 Hn2 HN HH.
  { rewrite zmerge_loop_nil_r.
    apply (zresidual1_chain TA TB TA (it1 :: l1) n1 h1); try assumption. }
  pose proof C1 as (Hw1 & Hlo1 & Hpm1 & Hi1 & Hhi1 & Hr1).
  pose proof C2 as (Hw2 & Hlo2 & Hpm2 & Hi2 & Hhi2 & Hr2).
  simpl in L1, L2. unfold hpm in HH.
  pose proof (zchain_hpm _ _ _ _ _ Hr1 L1) as Hh1.
  pose proof (zchain_hpm _ _ _ _ _ Hr2 L2) as Hh2.
  rewrite zmerge_loop_cons. unfold zprevMaxRank, znextMinRank in *.
  destruct (zvalue it1 <? zvalue it2)%float; [|destruct (zvalue it2 <? zvalue it1)%float];
    cbn [zchain]; unfold zprevMaxRank, znextMinRank; cbn [zvalue zweight zminRank zmaxRank];
    (split; [lia|]); (split; [lia|]); (split; [lia|]); (split; [lia|]); (split; [lia|]).
  - apply (IH1 (it2 :: l2) _ (zmaxRank it1) n2 h2); try assumption; try lia.
    unfold hpm at 2, zprevMaxRank. lia.
  - apply (IH2 n1 h1 _ (zmaxRank it2)); try assumption; try lia.
    unfold hpm at 1, zprevMaxRank. lia.
  - apply (IH1 l2 _ (zmaxRank it1) _ (zmaxRank it2)); try assumption; try lia.
Qed.

(** The last [maxRank] it writes is the sum of the two totals. *)
Lemma zmerge_loop_last l1 l2 n1 h1 n2 h2 D :
  zlast h1 l1 = TA -> zlast h2 l2 = TB ->
  (l1 = [] -> l2 = [] -> D = TA + TB) ->
  zlast D (zmerge_loop TA TB l1 l2 n1 n2) = TA + TB.
Proof.
  revert l2 n1 h1 n2 h2 D.
  induction l1 as [|it1 l1 IH1]; intros l2 n1 h1 n2 h2 D L1 L2 HD.
  { rewrite zmerge_loop_nil_l. destruct l2 as [|it2 l2]; [simpl; auto|].
    simpl in *. rewrite (Z.add_comm (zmaxRank it2) TA).
    rewrite (zlast_residual2 n1 l2 (zmaxRank it2)). lia. }
  revert n1 h1 n2 h2 D L1 L2 HD.
  induction l2 as [|it2 l2 IH2]; intros n1 h1 n2 h2 D L1 L2 HD.
  { rewrite zmerge_loop_nil_r. simpl in *.
    rewrite (zlast_residual1 n2 l1 (zmaxRank it1)). lia. }
  simpl in L1, L2. rewrite zmerge_loop_cons.
  destruct (zvalue it1 <? zvalue it2)%float; [|destruct (zvalue it2 <? zvalue it1)%float];
    cbn [zlast zmaxRank].
  - apply (IH1 (it2 :: l2) _ (zmaxRank it1) n2 h2); [exact L1|exact L2|discriminate].
  - apply (IH2 n1 h1 _ (zmaxRank it2)); [exact L1|exact L2|discriminate].
  - apply (IH1 l2 _ (zmaxRank it1) _ (zmaxRank it2)); [exact L1|exact L2|].
    intros -> ->. simpl in *. lia.
Qed.
End ZMergeChain.

(** A valid integer summary of total weight [T]: the rank invariants
    hold from 0, the first [minRank] is 0 and the last [maxRank] is
    [T]. *)
Definition zvalid (T : Z) (l : list ZEntry) : Prop :=
  zchain T 0 0 l /\ zlast 0 l = T /\
  match l with [] => True | z :: _ => zminRank z = 0 end.

Lemma zchain_monotone T n h l :
  zchain T n h l ->
  Sorted Z.le (map zminRank l) /\ Sorted Z.le (map zmaxRank l) /\
  Forall (fun z => zminRank z <= zmaxRank z) l.
Proof.
  revert n h. induction l as [|z r IH]; intros n h Hc; simpl.
  { repeat split; constructor. }
  destruct Hc as (Hw & Hlo & Hpm & Hi & Hhi & Hr).
  destruct (IH _ _ Hr) as (S1 & S2 & F). unfold znextMinRank, zprevMaxRank in *.
  split; [|split].
  - constructor; [exact S1|]. destruct r as [|z' r']; simpl; constructor.
    destruct Hr as (_ & Hlo' & _). lia.
  - constructor; [exact S2|]. destruct r as [|z' r']; simpl; constructor.
    destruct Hr as (Hw' & _ & Hpm' & _). unfold zprevMaxRank in *. lia.
  - constructor; [lia|exact F].
Qed.

Lemma lastMaxRank_embed h z l :
  lastMaxRank (map embed (z :: l)) = F64.of_int (zlast h (z :: l)).
Proof.
  revert h z. induction l as [|z' l IH]; intros h z; [reflexivity|].
  change (map embed (z :: z' :: l)) with (embed z :: map embed (z' :: l)).
  rewrite lastMaxRank_cons by discriminate. rewrite (IH (zmaxRank z) z'). reflexivity.
Qed.

Lemma zmerge_loop_first TA TB z1 l1 z2 l2 :
  zminRank z1 = 0 -> zminRank z2 = 0 ->
  match zmerge_loop TA TB (z1 :: l1) (z2 :: l2) 0 0 with
  | [] => True
  | z :: _ => zminRank z = 0
  end.
Proof.
  intros H1 H2. rewrite zmerge_loop_cons.
  destruct (_ <? _)%float; [|destruct (_ <? _)%float]; simpl; lia.
Qed.

(** X13: [Merge] keeps the rank invariants in exact arithmetic. For
    two summaries whose weights and ranks are integers satisfying the
    invariants (non-negative weights, [minRank + weight <= maxRank],
    each entry's [minRank] at least the [nextMinRank] and its
    [prevMaxRank] at least the [maxRank] of the entry before it, first
    [minRank] 0, last [maxRank] the total) with totals that together
    stay below 2^53, the merged summary has integer ranks computed
    without rounding that satisfy the same invariants for the sum of
    the totals; in particular its [minRank] and [maxRank] sequences are
    non-decreasing. *)
Theorem Merge_valid (A B : list ZEntry) (TA TB : Z) :
  zvalid TA A -> zvalid TB B -> TA + TB < 2 ^ 53 ->
  exists C,
    entries (Merge {| entries := map embed A |} {| entries := map embed B |}) = map embed C /\
    zvalid (TA + TB) C /\
    Sorted Z.le (map zminRank C) /\ Sorted Z.le (map zmaxRank C).
Proof.
  intros (CA & LA & FA) (CB & LB & FB) Hs.
  assert (Hmono : forall T C, zvalid T C ->
            Sorted Z.le (map zminRank C) /\ Sorted Z.le (map zmaxRank C)).
  { intros T C (HC & _). destruct (zchain_monotone _ _ _ _ HC) as (S1 & S2 & _). auto. }
  unfold Merge. cbn [entries].
  destruct B as [|b B].
  { simpl in LB. subst TB. exists A. rewrite Z.add_0_r.
    split; [reflexivity|]. split; [exact (conj CA (conj LA FA))|].
    apply (Hmono TA). exact (conj CA (conj LA FA)). }
  destruct A as [|a A].
  { simpl in LA. subst TA. exists (b :: B). rewrite Z.add_0_l.
    split; [reflexivity|]. split; [exact (conj CB (conj LB FB))|].
    apply (Hmono TB). exact (conj CB (conj LB FB)). }
  pose proof (zchain_bounded _ _ _ _ CA (Z.le_refl 0)) as BA.
  pose proof (zchain_bounded _ _ _ _ CB (Z.le_refl 0)) as BB.
  assert (0 <= TA) by (destruct (Forall_inv BA) as (? & ? & ? & ?); lia).
  assert (0 <= TB) by (destruct (Forall_inv BB) as (? & ? & ? & ?); lia).
  exists (zmerge_loop TA TB (a :: A) (b :: B) 0 0).
  assert (HV : zvalid (TA + TB) (zmerge_loop TA TB (a :: A) (b :: B) 0 0)).
  { split; [|split].
    - apply (zmerge_loop_chain TA TB (a :: A) (b :: B) 0 0 0 0); try assumption; try lia.
      destruct CA as (_ & _ & Ha & _), CB as (_ & _ & Hb & _). simpl. lia.
    - apply (zmerge_loop_last TA TB (a :: A) (b :: B) 0 0 0 0); try assumption. discriminate.
    - apply zmerge_loop_first; assumption. }
  split; [|split; [exact HV|exact (Hmono _ _ HV)]].
  change (map embed (b :: B)) with (embed b :: map embed B).
  change (map embed (a :: A)) with (embed a :: map embed A).
  cbv zeta. cbn [entries].
  change (embed a :: map embed A) with (map embed (a :: A)).
  change (embed b :: map embed B) with (map embed (b :: B)).
  change 0%float with (F64.of_int 0).
  apply (merge_loop_embed TA TB); try assumption; try lia.
  - rewrite (lastMaxRank_embed 0). now rewrite LA.
  - rewrite (lastMaxRank_embed 0). now rewrite LB.
Qed.

Definition sample_A : list ZEntry := [mkZEntry 1 2 0 2; mkZEntry 3 1 2 3].
Definition sample_B : list ZEntry := [mkZEntry 2 1 0 1].

Lemma Merge_valid_witness :
  exists C,
    entries (Merge {| entries := map embed sample_A |} {| entries := map embed sample_B |})
    = map embed C /\
    zvalid (3 + 1) C /\
    Sorted Z.le (map zminRank C) /\ Sorted Z.le (map zmaxRank C).
Proof.
  apply (Merge_valid sample_A sample_B 3 1).
  - unfold zvalid, sample_A. cbn [zchain zlast]. unfold zprevMaxRank, znextMinRank.
    cbn [zweight zminRank zmaxRank]. lia.
  - unfold zvalid, sample_B. cbn [zchain zlast]. unfold zprevMaxRank, znextMinRank.
    cbn [zweight zminRank zmaxRank]. lia.
  - reflexivity.
Defined.

(** ** [compress] on summaries with integer ranks *)

Lemma of_int_eqb_refl z : Z.abs z < 2 ^ 53 -> (F64.of_int z =? F64.of_int z)%float = true.
Proof.
  intros Hz. rewrite FloatAxioms.eqb_spec, of_int_canon by exact Hz.
  unfold SFeqb. rewrite SFcompare_canon by exact Hz. now rewrite Z.compare_refl.
Qed.

Lemma embed_self_equal T z :
  zbounded T z -> T < 2 ^ 53 -> notnan (zvalue z) -> self_equal (embed z).
Proof.
  intros (Hw & Hlo & Hi & Hhi) HT Hv. unfold self_equal, SumEntry_eqb, embed.
  cbn [value weight minRank maxRank]. unfold notnan in Hv. rewrite Hv.
  rewrite !of_int_eqb_refl by lia. reflexivity.
Qed.

Lemma embed_ranks T a c :
  zbounded T a -> zbounded T c -> T < 2 ^ 53 -> embed c = embed a ->
  zminRank c = zminRank a /\ zmaxRank c = zmaxRank a.
Proof.
  intros (Hwa & Hloa & Hia & Hhia) (Hwc & Hloc & Hic & Hhic) HT He.
  pose proof (f_equal minRank He) as Hmin. pose proof (f_equal maxRank He) as Hmax.
  cbn [embed minRank maxRank] in Hmin, Hmax.
  apply (f_equal F64.to_int) in Hmin. apply (f_equal F64.to_int) in Hmax.
  rewrite !to_int_of_int in Hmin, Hmax by lia. auto.
Qed.

Lemma sublist_map_inv {A B} (f : A -> B) (l : list B) (k : list A) :
  l `sublist_of` map f k -> exists k', l = map f k' /\ k' `sublist_of` k.
Proof.
  revert l. induction k as [|x k IH]; intros l H; simpl in H.
  - apply sublist_nil_r in H. subst l. exists []. split; [reflexivity|constructor].
  - inversion H as [|y l1 l2 H'|y l1 l2 H']; subst.
    + destruct (IH _ H') as (k' & -> & Hk). exists (x :: k'). split; [reflexivity|].
      now constructor.
    + destruct (IH _ H') as (k' & -> & Hk). exists k'. split; [reflexivity|].
      now constructor.
Qed.

Lemma zchain_sublist T n h l l' :
  l' `sublist_of` l -> zchain T n h l -> zchain T n h l'.
Proof.
  intros Hs. revert n h. induction Hs as [|z l1 l2 Hs IH|z l1 l2 Hs IH]; intros n h Hc.
  - exact I.
  - destruct Hc as (Hw & Hlo & Hpm & Hi & Hhi & Hr). repeat split; try assumption.
    now apply IH.
  - destruct Hc as (Hw & Hlo & Hpm & Hi & Hhi & Hr). apply IH.
    apply (zchain_weaken T T _ n _ h _ Hr); unfold znextMinRank, zprevMaxRank in *; lia.
Qed.

Lemma zlast_last h l :
  zlast h l = match last l with Some z => zmaxRank z | None => h end.
Proof.
  revert h. induction l as [|z r IH]; intros h; [reflexivity|].
  simpl zlast. rewrite IH. destruct r as [|z' r']; [reflexivity|].
  rewrite (last_cons_ne z) by discriminate.
  destruct (last (z' :: r')) eqn:E; [reflexivity|]. apply last_None in E. discriminate.
Qed.

(** X14: [compress] keeps the rank invariants. On a summary whose
    weights and ranks are integers satisfying them with a total below
    2^53, and whose values are not NaN, [compress] returns for every
    size hint and epsilon, and what it returns is a selection of the
    entries that satisfies the invariants for the same total. *)
Theorem compress_valid (A : list ZEntry) (T : Z) (sizeHint : Z) (minEps : float) :
  zvalid T A -> T < 2 ^ 53 -> Forall (fun z => notnan (zvalue z)) A ->
  exists C,
    compress {| entries := map embed A |} sizeHint minEps = Done {| entries := map embed C |} /\
    C `sublist_of` A /\ zvalid T C.
Proof.
  intros (CA & LA & FA) HT Hv.
  pose proof (zchain_bounded _ _ _ _ CA (Z.le_refl 0)) as BA.
  assert (Hse : Forall self_equal (map embed A)).
  { clear -BA HT Hv. induction A as [|a A IH]; [constructor|].
    simpl. constructor.
    - apply (embed_self_equal T); [exact (Forall_inv BA)|exact HT|exact (Forall_inv Hv)].
    - apply IH; [exact (Forall_inv_tail Hv)|exact (Forall_inv_tail BA)]. }
  destruct (compress_inplace_kept (map embed A) sizeHint minEps Hse)
    as (es' & wi & Heq & Hsub & Hh & Hl).
  destruct (sublist_map_inv _ _ _ Hsub) as (C & HC & HCA).
  exists C. unfold compress. cbn [entries]. rewrite Heq. cbn [mbind outcome_bind].
  rewrite HC. split; [reflexivity|]. split; [exact HCA|].
  pose proof (zchain_sublist _ _ _ _ _ HCA CA) as CC.
  pose proof (zchain_bounded _ _ _ _ CC (Z.le_refl 0)) as BC.
  rewrite HC in Hh, Hl. rewrite !last_map_option in Hl. rewrite !head_map_option in Hh.
  split; [exact CC|]. split.
  - rewrite zlast_last. rewrite zlast_last in LA.
    destruct (last C) as [c|] eqn:Ec, (last A) as [a|] eqn:Ea; simpl in Hl; try discriminate.
    + apply (inj Some) in Hl.
      assert (Hc : zbounded T c).
      { apply (proj1 (Forall_forall _ _) BC). eapply last_Some_elem_of, Ec. }
      assert (Ha : zbounded T a).
      { apply (proj1 (Forall_forall _ _) BA). eapply last_Some_elem_of, Ea. }
      destruct (embed_ranks T a c Ha Hc HT Hl) as [_ ->]. exact LA.
    + exact LA.
  - destruct C as [|c C']; [exact I|]. destruct A as [|a A']; [discriminate|].
    simpl in Hh. apply (inj Some) in Hh.
    destruct (embed_ranks T a c (Forall_inv BA) (Forall_inv BC) HT Hh) as [-> _]. exact FA.
Qed.

Definition sample_C : list ZEntry :=
  [mkZEntry 1 1 0 1; mkZEntry 2 1 1 2; mkZEntry 3 1 2 3; mkZEntry 4 1 3 4; mkZEntry 5 1 4 5].

Lemma compress_valid_witness :
  exists C,
    compress {| entries := map embed sample_C |} 2 0 = Done {| entries := map embed C |} /\
    C `sublist_of` sample_C /\ zvalid 5 C.
Proof.
  apply (compress_valid sample_C 5 2 0).
  - unfold zvalid, sample_C. cbn [zchain zlast]. unfold zprevMaxRank, znextMinRank.
    cbn [zweight zminRank zmaxRank]. lia.
  - reflexivity.
  - repeat constructor.
Defined.

(** ** [buildFromBufferEntries] gives a valid summary *)

(** The integer entries of a buffer, from the running sum [c] on. *)
Fixpoint zbuild (c : Z) (vws : list (float * Z)) : list ZEntry :=
  match vws with
  | [] => []
  | p :: rest => mkZEntry (fst p) (snd p) c (c + snd p) :: zbuild (c + snd p) rest
  end.

Lemma int_entries_embed c vws : int_entries c vws = map embed (zbuild c vws).
Proof.
  revert c. induction vws as [|p rest IH]; intros c; [reflexivity|].
  simpl. now rewrite IH.
Qed.

Lemma zbuild_chain T c vws :
  Forall (fun p => 0 <= snd p) vws -> c + sum_weights vws <= T ->
  zchain T c c (zbuild c vws).
Proof.
  intros Hw. revert c. induction Hw as [|p rest Hp Hw IH]; intros c Hs; [exact I|].
  pose proof (sum_weights_nonneg rest Hw). simpl in Hs.
  cbn [zbuild zchain]. unfold zprevMaxRank, znextMinRank. cbn [zweight zminRank zmaxRank].
  repeat (split; [lia|]). apply IH. lia.
Qed.

Lemma zbuild_last c vws : zlast c (zbuild c vws) = c + sum_weights vws.
Proof.
  revert c. induction vws as [|p rest IH]; intros c; simpl; [lia|].
  rewrite IH. lia.
Qed.

(** X15: for a buffer whose weights are non-negative integers with a
    sum below 2^53, the summary that [buildFromBufferEntries] builds
    has integer ranks that satisfy the rank invariants, with the sum of
    the weights as total. *)
Theorem buildFromBufferEntries_valid (vws : list (float * Z)) :
  Forall (fun p => 0 <= snd p) vws -> sum_weights vws < 2 ^ 53 ->
  entries (buildFromBufferEntries (int_buffer vws)) = map embed (zbuild 0 vws) /\
  zvalid (sum_weights vws) (zbuild 0 vws).
Proof.
  intros Hw Hs. split.
  - rewrite build_int_entries by assumption. cbn [entries]. apply int_entries_embed.
  - split; [apply zbuild_chain; [exact Hw|lia]|]. split.
    + rewrite zbuild_last. lia.
    + destruct vws; [exact I|reflexivity].
Qed.

Lemma buildFromBufferEntries_valid_witness :
  entries (buildFromBufferEntries (int_buffer [(1%float, 2); (2%float, 0); (3%float, 5)]))
  = map embed (zbuild 0 [(1%float, 2); (2%float, 0); (3%float, 5)]) /\
  zvalid (sum_weights [(1%float, 2); (2%float, 0); (3%float, 5)])
         (zbuild 0 [(1%float, 2); (2%float, 0); (3%float, 5)]).
Proof.
  apply (buildFromBufferEntries_valid [(1%float, 2); (2%float, 0); (3%float, 5)]).
  - repeat constructor; simpl; lia.
  - reflexivity.
Defined.
